(** * The MQTT container and the agent runtime of mango

    A shallow embedding of [mango/container/mqtt.py] (class [MQTTContainer])
    and [mango/core/agent.py] (class [Agent]).  Python objects live in one
    record, the [World]; every method is a computation in a state-and-exception
    monad over it, so that a raised exception keeps the mutations made before
    it, as in Python.  Calls to the paho client, log warnings and the
    observable steps of an agent are appended to a trace of events. *)

From Stdlib Require Import Ascii.
From stdpp Require Import base option list gmap sets strings.

Open Scope Z_scope.

(** ** Python values *)

(** The values found in a [meta] or keyword dictionary. *)
Inductive value :=
| VNone
| VBool (b : bool)
| VInt (n : Z)
| VStr (s : string).

#[global] Instance value_eq_dec : EqDecision value.
Proof. solve_decision. Defined.

(** Python truthiness, as used by [if x], [x and y], [not x]. *)
Definition truthy (v : value) : bool :=
  match v with
  | VNone => false
  | VBool b => b
  | VInt n => negb (n =? 0)
  | VStr s => negb (bool_decide (s = ""))
  end.

(** Truthiness of an [Optional[str]] such as [self.addr]. *)
Definition truthy_addr (a : option string) : bool :=
  match a with
  | Some s => truthy (VStr s)
  | None => false
  end.

(** An [Optional[str]] stored into a dictionary. *)
Definition value_of_addr (a : option string) : value :=
  match a with
  | Some s => VStr s
  | None => VNone
  end.

(** A dictionary with string keys whose order is never observed: [meta],
    [kwargs], [mqtt_kwargs], [acl_metadata]. *)
Abbreviation pydict := (gmap string value).

(** [d.update(e)]: the entries of [e] win. *)
Definition dict_update (d e : pydict) : pydict := e ∪ d.

(** [d.get(k, dflt)] *)
Definition dict_get_default (d : pydict) (k : string) (dflt : value) : value :=
  default dflt (d !! k).

(** Message objects.  [OACL] is an [ACLMessage]: the one class of the code
    base with [split_content_and_meta], [extract_meta] and [content]. *)
Inductive obj :=
| ONone
| OData (body : string)
| OACL (content : obj) (fields : pydict).

(** [x is not None] *)
Definition is_not_none (o : obj) : bool :=
  match o with
  | ONone => false
  | _ => true
  end.

(** Modelled from the spec: [split_content_and_meta] of the message classes
    (module [mango.messages], not in the sources): "extracts routing/envelope
    metadata separately from the payload content"; [None] stands for
    [hasattr(o, "split_content_and_meta")] being false. *)
Definition split_content_and_meta (o : obj) : option (obj * pydict) :=
  match o with
  | OACL content fields => Some (content, fields)
  | _ => None
  end.

(** Classes that can be bound to a topic as the expected class. *)
Inductive pyclass :=
| ACLMessage
| UserClass (name : string).

#[global] Instance pyclass_eq_dec : EqDecision pyclass.
Proof. solve_decision. Defined.

(** An entry of an agent's inbox or of the container's: the tuple
    [(priority, content, meta)]. *)
Abbreviation msg := (Z * obj * pydict)%type.

(** ** Insertion-ordered dictionaries

    [additional_subscriptions] and [subscriptions_to_class] are iterated with
    [.items()], so their insertion order is kept: an association list in which
    assignment to a present key keeps the key's place. *)

Abbreviation odict V := (list (string * V)).

Definition od_keys {V} (d : odict V) : list string := d.*1.

Fixpoint od_get {V} (k : string) (d : odict V) : option V :=
  match d with
  | [] => None
  | (k', v) :: d' => if decide (k = k') then Some v else od_get k d'
  end.

(** [k in d.keys()] *)
Definition od_mem {V} (k : string) (d : odict V) : bool :=
  bool_decide (is_Some (od_get k d)).

(** [d[k] = v] *)
Fixpoint od_set {V} (k : string) (v : V) (d : odict V) : odict V :=
  match d with
  | [] => [(k, v)]
  | (k', v') :: d' =>
      if decide (k = k') then (k, v) :: d' else (k', v') :: od_set k v d'
  end.

(** In-place mutation of the value stored under [k], as [d[k].add(x)]. *)
Fixpoint od_alter {V} (f : V → V) (k : string) (d : odict V) : odict V :=
  match d with
  | [] => []
  | (k', v') :: d' =>
      if decide (k = k') then (k', f v') :: d' else (k', v') :: od_alter f k d'
  end.

(** [d.pop(k)] for a present key. *)
Fixpoint od_pop {V} (k : string) (d : odict V) : odict V :=
  match d with
  | [] => []
  | (k', v') :: d' =>
      if decide (k = k') then d' else (k', v') :: od_pop k d'
  end.

(** ** Exceptions, events, futures and tasks *)

Inductive exn :=
| ValueError (what : string)
| KeyError (key : string)
| AttributeError
| InvalidStateError
| CancelledError
| DecodeError
| HandlerError (what : string).

#[global] Instance exn_eq_dec : EqDecision exn.
Proof. solve_decision. Defined.

(** How a run of a method ends: with a value, with a raised exception, or
    suspended for good in an [await]. *)
Inductive res (A : Type) :=
| Ok (a : A)
| Err (e : exn)
| Blocked.
Arguments Ok {A} a.
Arguments Err {A} e.
Arguments Blocked {A}.

(** An [asyncio.Future]. *)
Inductive fut_state :=
| FPending
| FResult (v : value).

#[global] Instance fut_state_eq_dec : EqDecision fut_state.
Proof. solve_decision. Defined.

(** The state of an [asyncio.Task]. *)
Inductive task_state :=
| TPending
| TFinished
| TCancelled
| TFailed (e : exn).

#[global] Instance task_state_eq_dec : EqDecision task_state.
Proof. solve_decision. Defined.

(** What [loop.call_soon_threadsafe] hands from the broker thread over to the
    event loop. *)
Inductive callback :=
| SetResult (f : nat) (v : value)
| PutNowait (m : msg).

Inductive event :=
(* the paho client *)
| LoopStart
| Subscribe (topic : string) (qos : Z)
| Unsubscribe (topic : string)
| Publish (topic : string) (payload : list Byte.byte)
| Disconnect
| LoopStop
(* logging and warnings *)
| WarnUnknownReceiver (receiver_id : option value)
| WarnNoSubscriber (topic : value)
| WarnDeprecated (what : string)
(* the agent *)
| HandleMsg (aid : string) (content : obj) (meta : pydict)
| InboxTaskDone (aid : string)
| LogCaught (aid : string) (e : exn)
| SetStopped (aid : string)
| DeregisterAgent (aid : string)
| RemoveDoneCallback (aid : string)
| CancelTask (aid : string)
| AwaitTask (aid : string)
| SchedulerStop (aid : string)
| LogShutdown (aid : string)
(* an exception that reaches the event loop's exception handler *)
| LoopException (e : exn)
(* an exception raised in the broker thread *)
| ThreadException (e : exn).

(** The part of an [Agent] object the runtime touches. *)
Record Agent := mkAgent {
  agent_inbox : list msg;          (* self.inbox = asyncio.Queue() *)
  check_inbox_task : task_state;   (* self._check_inbox_task *)
  done_callback : bool;            (* raise_exceptions attached to the task *)
  stopped : bool                   (* self.stopped.done() *)
}.

(** ** The world *)

Record World := mkWorld {
  (* Container *)
  addr : option string;
  running : bool;
  agents : gset string;                         (* keys of self._agents *)
  inbox : list msg;                             (* self.inbox *)
  (* MQTTContainer *)
  inbox_topic : option string;
  additional_subscriptions : odict (gset string);
  subscriptions_to_class : odict pyclass;
  pending_sub_request : option nat;
  (* asyncio *)
  futures : list fut_state;                     (* every Future created *)
  ready : list callback;                        (* posted, not yet run *)
  awaiting : list nat;                          (* suspended subscribe_for_agent calls *)
  (* the Agent objects, by aid *)
  objects : gmap string Agent;
  trace : list event
}.

Definition set_running (b : bool) (w : World) : World :=
  mkWorld (addr w) b (agents w) (inbox w) (inbox_topic w)
    (additional_subscriptions w) (subscriptions_to_class w)
    (pending_sub_request w) (futures w) (ready w) (awaiting w) (objects w)
    (trace w).

Definition set_agents (f : gset string → gset string) (w : World) : World :=
  mkWorld (addr w) (running w) (f (agents w)) (inbox w) (inbox_topic w)
    (additional_subscriptions w) (subscriptions_to_class w)
    (pending_sub_request w) (futures w) (ready w) (awaiting w) (objects w)
    (trace w).

Definition set_inbox (f : list msg → list msg) (w : World) : World :=
  mkWorld (addr w) (running w) (agents w) (f (inbox w)) (inbox_topic w)
    (additional_subscriptions w) (subscriptions_to_class w)
    (pending_sub_request w) (futures w) (ready w) (awaiting w) (objects w)
    (trace w).

Definition set_additional_subscriptions
    (f : odict (gset string) → odict (gset string)) (w : World) : World :=
  mkWorld (addr w) (running w) (agents w) (inbox w) (inbox_topic w)
    (f (additional_subscriptions w)) (subscriptions_to_class w)
    (pending_sub_request w) (futures w) (ready w) (awaiting w) (objects w)
    (trace w).

Definition set_subscriptions_to_class
    (f : odict pyclass → odict pyclass) (w : World) : World :=
  mkWorld (addr w) (running w) (agents w) (inbox w) (inbox_topic w)
    (additional_subscriptions w) (f (subscriptions_to_class w))
    (pending_sub_request w) (futures w) (ready w) (awaiting w) (objects w)
    (trace w).

Definition set_pending_sub_request (p : option nat) (w : World) : World :=
  mkWorld (addr w) (running w) (agents w) (inbox w) (inbox_topic w)
    (additional_subscriptions w) (subscriptions_to_class w)
    p (futures w) (ready w) (awaiting w) (objects w) (trace w).

Definition set_futures (f : list fut_state → list fut_state) (w : World) : World :=
  mkWorld (addr w) (running w) (agents w) (inbox w) (inbox_topic w)
    (additional_subscriptions w) (subscriptions_to_class w)
    (pending_sub_request w) (f (futures w)) (ready w) (awaiting w) (objects w)
    (trace w).

Definition set_ready (f : list callback → list callback) (w : World) : World :=
  mkWorld (addr w) (running w) (agents w) (inbox w) (inbox_topic w)
    (additional_subscriptions w) (subscriptions_to_class w)
    (pending_sub_request w) (futures w) (f (ready w)) (awaiting w) (objects w)
    (trace w).

Definition set_awaiting (f : list nat → list nat) (w : World) : World :=
  mkWorld (addr w) (running w) (agents w) (inbox w) (inbox_topic w)
    (additional_subscriptions w) (subscriptions_to_class w)
    (pending_sub_request w) (futures w) (ready w) (f (awaiting w)) (objects w)
    (trace w).

Definition set_objects
    (f : gmap string Agent → gmap string Agent) (w : World) : World :=
  mkWorld (addr w) (running w) (agents w) (inbox w) (inbox_topic w)
    (additional_subscriptions w) (subscriptions_to_class w)
    (pending_sub_request w) (futures w) (ready w) (awaiting w) (f (objects w))
    (trace w).

Definition set_trace (f : list event → list event) (w : World) : World :=
  mkWorld (addr w) (running w) (agents w) (inbox w) (inbox_topic w)
    (additional_subscriptions w) (subscriptions_to_class w)
    (pending_sub_request w) (futures w) (ready w) (awaiting w) (objects w)
    (f (trace w)).

(** ** The monad of methods

    A method maps the world to a result (a value or a raised exception) and
    the world it leaves behind. *)

Definition M (A : Type) : Type := World → res A * World.

#[global] Instance M_ret : MRet M := λ A a w, (Ok a, w).

#[global] Instance M_bind : MBind M := λ A B k m w,
  match m w with
  | (Ok a, w') => k a w'
  | (Err e, w') => (Err e, w')
  | (Blocked, w') => (Blocked, w')
  end.

Definition get : M World := λ w, (Ok w, w).
Definition gets {A} (f : World → A) : M A := λ w, (Ok (f w), w).
Definition modify (f : World → World) : M unit := λ w, (Ok (), f w).
Definition raise {A} (e : exn) : M A := λ w, (Err e, w).
Definition lift_res {A} (r : res A) : M A := λ w, (r, w).

(** Appends one event to the trace. *)
Definition emit (ev : event) : M unit := modify (set_trace (λ t, t ++ [ev])).

(** [when b m]: [if b: m] *)
Definition when (b : bool) (m : M unit) : M unit := if b then m else mret ().

(** [try: body / except E: handler], where [catches] tells the exceptions the
    clause matches. *)
Definition try_except {A} (body : M A) (catches : exn → bool) (handler : M A) : M A :=
  λ w, match body w with
       | (Err e, w') => if catches e then handler w' else (Err e, w')
       | r => r
       end.

(** [try: body / finally: fin] *)
Definition try_finally {A} (body : M A) (fin : M unit) : M A :=
  λ w, match body w with
       | (Blocked, w') => (Blocked, w')
       | (r, w') =>
           match fin w' with
           | (Ok _, w'') => (r, w'')
           | (Err e, w'') => (Err e, w'')
           | (Blocked, w'') => (Blocked, w'')
           end
       end.

(** A callback run by the event loop: an exception it raises is handed to the
    loop's exception handler. *)
Definition in_loop (m : M unit) : M unit :=
  λ w, match m w with
       | (Err e, w') => (Ok (), set_trace (λ t, t ++ [LoopException e]) w')
       | r => r
       end.

(** A callback run by the broker thread. *)
Definition in_thread (m : M unit) : M unit :=
  λ w, match m w with
       | (Err e, w') => (Ok (), set_trace (λ t, t ++ [ThreadException e]) w')
       | r => r
       end.

(** [for x in xs: body x] *)
Fixpoint for_each {B} (xs : list B) (body : B → M unit) : M unit :=
  match xs with
  | [] => mret ()
  | x :: xs' => body x ;; for_each xs' body
  end.

(** The world a computation leaves, and its result. *)
Definition exec {A} (m : M A) (w : World) : World := (m w).2.
Definition result {A} (m : M A) (w : World) : res A := (m w).1.

(** ** asyncio: futures, posted callbacks, tasks *)

(** [asyncio.Future()] *)
Definition new_future : M nat :=
  f ← gets (λ w, length (futures w));
  modify (set_futures (λ fs, fs ++ [FPending]));;
  mret f.

(** [fut.set_result(v)]: a future is resolved once, and the coroutines that
    await it are woken up. *)
Definition future_set_result (f : nat) (v : value) : M unit :=
  fs ← gets futures;
  match fs !! f with
  | Some FPending =>
      modify (set_futures (<[f := FResult v]>));;
      modify (set_awaiting (filter (λ g, g ≠ f)))
  | _ => raise InvalidStateError
  end.

(** [loop.call_soon_threadsafe(cb)] *)
Definition call_soon_threadsafe (cb : callback) : M unit :=
  modify (set_ready (λ q, q ++ [cb])).

(** How a coroutine that may suspend on a future ends its first run. *)
Inductive outcome :=
| Return (b : bool)
| Await (f : nat).

(** [await fut] followed by [return b]: a resolved future lets the coroutine
    go on at once, a pending one suspends it. *)
Definition await_then_return (f : nat) (b : bool) : M outcome :=
  fs ← gets futures;
  match fs !! f with
  | Some (FResult _) => mret (Return b)
  | _ => modify (set_awaiting (λ l, l ++ [f]));; mret (Await f)
  end.

Definition set_agent_inbox (f : list msg → list msg) (a : Agent) : Agent :=
  mkAgent (f (agent_inbox a)) (check_inbox_task a) (done_callback a) (stopped a).

Definition set_check_inbox_task (t : task_state) (a : Agent) : Agent :=
  mkAgent (agent_inbox a) t (done_callback a) (stopped a).

Definition set_done_callback (b : bool) (a : Agent) : Agent :=
  mkAgent (agent_inbox a) (check_inbox_task a) b (stopped a).

Definition set_stopped (b : bool) (a : Agent) : Agent :=
  mkAgent (agent_inbox a) (check_inbox_task a) (done_callback a) b.

(** [task.cancel()]: a pending task is thrown [CancelledError] at the [await]
    it is suspended in; [_check_inbox] does not catch it. *)
Definition task_cancel (t : task_state) : task_state :=
  match t with
  | TPending => TCancelled
  | _ => t
  end.

(** [await task] once the task is done; [None] while it is pending. *)
Definition task_await (t : task_state) : option (res unit) :=
  match t with
  | TPending => None
  | TFinished => Some (Ok ())
  | TCancelled => Some (Err CancelledError)
  | TFailed e => Some (Err e)
  end.

(** ** The constructor *)

(** [MQTTContainer.__init__]: both [self.addr] (set by [Container.__init__])
    and [self.inbox_topic] hold the [addr] argument. *)
Definition init (a : option string) : World :=
  mkWorld a true ∅ [] a [] [] None [] [] [] ∅ [LoopStart].

Definition MQTT_ERR_SUCCESS : Z := 0.

(** ** Collaborators for the examples

    The container is parametric in paho's topic matcher, in the codec and in
    [_create_acl]; the examples run it with the stand-ins below. *)

(** The levels of a topic: the pieces between ["/"]. *)
Fixpoint topic_levels (acc : string) (s : string) : list string :=
  match s with
  | EmptyString => [acc]
  | String c s' =>
      if bool_decide (c = "/"%char) then acc :: topic_levels "" s'
      else topic_levels (acc +:+ String c EmptyString) s'
  end.

(** The wildcard rules of MQTT: ["+"] matches one level, ["#"] the rest. *)
Fixpoint levels_match (sub topic : list string) : bool :=
  match sub, topic with
  | [], [] => true
  | s :: sub', t :: topic' =>
      if bool_decide (s = "#") then true
      else (bool_decide (s = "+") || bool_decide (s = t))
           && levels_match sub' topic'
  | [s], [] => bool_decide (s = "#")
  | _, _ => false
  end.

Definition mqtt_topic_matches_sub (sub topic : string) : bool :=
  levels_match (topic_levels "" sub) (topic_levels "" topic).

(** A codec on one-byte payloads, enough to run the examples. *)
Definition sample_acl : obj :=
  OACL (OData "hello") {[ "sender_id" := VStr "agent7" ]}.

Definition sample_decode (payload : list Byte.byte) : res obj :=
  match payload with
  | [Byte.x00] => Ok ONone
  | [Byte.x01] => Ok (OData "hello")
  | [Byte.x02] => Ok sample_acl
  | _ => Err DecodeError
  end.

Definition sample_encode (message : obj) : list Byte.byte :=
  match message with
  | ONone => [Byte.x00]
  | OData _ => [Byte.x01]
  | OACL _ _ => [Byte.x02]
  end.

Definition sample_create_acl (sender_addr : option string) (content : obj)
    (receiver_addr : string) (receiver_id : option string)
    (acl_metadata : option pydict) : obj :=
  OACL content
    (<["receiver_addr" := VStr receiver_addr]> (default ∅ acl_metadata)).

Section Mango.

(** [paho.topic_matches_sub(sub, topic)] *)
Variable topic_matches_sub : string → string → bool.

(** The codec: [decode] raises on a malformed payload. *)
Variable codec_decode : list Byte.byte → res obj.
Variable codec_encode : obj → list Byte.byte.

(** [Container._create_acl(content, receiver_addr, receiver_id, acl_metadata)],
    which also reads [self.addr]. *)
Variable _create_acl :
  option string → obj → string → option string → option pydict → obj.

(** *** Broker callbacks *)

(** [on_sub]: the bound method [self.pending_sub_request.set_result] is
    looked up in the broker thread and posted to the loop. *)
Definition on_sub : M unit :=
  p ← gets pending_sub_request;
  match p with
  | Some f => call_soon_threadsafe (SetResult f (VInt 0))
  | None => raise AttributeError
  end.

(** The [for ... break] loop of [decode_mqtt_msg]: the class of the first
    binding whose pattern matches, instantiated; [None] when there is none. *)
Fixpoint class_for (topic : string) (items : odict pyclass) : option pyclass :=
  match items with
  | [] => None
  | (sub, sub_class) :: rest =>
      if topic_matches_sub sub topic then Some sub_class
      else class_for topic rest
  end.

(** [decoded.extract_meta()] and [decoded.content] *)
Definition extract_meta (decoded : obj) : M pydict :=
  match decoded with
  | OACL _ fields => mret fields
  | _ => raise AttributeError
  end.

Definition get_content (decoded : obj) : M obj :=
  match decoded with
  | OACL content _ => mret content
  | _ => raise AttributeError
  end.

Definition decode_mqtt_msg (topic : string) (payload : list Byte.byte)
    : M (obj * pydict) :=
  classes ← gets subscriptions_to_class;
  let content := class_for topic classes in
  decoded ← lift_res (codec_decode payload);
  if bool_decide (content = Some ACLMessage) then
    meta ← extract_meta decoded;
    content ← get_content decoded;
    mret (decoded, meta)
  else
    mret (decoded, ∅).

Definition on_msg (topic : string) (payload : list Byte.byte) (qos : Z)
    (retain : bool) : M unit :=
  let meta : pydict :=
    {[ "network_protocol" := VStr "mqtt"; "topic" := VStr topic;
       "qos" := VInt qos; "retain" := VBool retain ]} in
  '(msg_content, msg_meta) ← decode_mqtt_msg topic payload;
  let meta := dict_update meta msg_meta in
  when (is_not_none msg_content)
    (call_soon_threadsafe (PutNowait (0, msg_content, meta))).

(** *** Dispatch of an incoming message *)

(** [topic == self.inbox_topic] *)
Definition topic_is (topic : value) (a : option string) : bool :=
  match topic, a with
  | VStr t, Some s => bool_decide (t = s)
  | VNone, None => true
  | _, _ => false
  end.

(** [paho.topic_matches_sub(sub, topic)] on the value found in [meta]: paho
    splits the topic, which only a [str] has. *)
Definition matches (sub : string) (topic : value) : M bool :=
  match topic with
  | VStr t => mret (topic_matches_sub sub t)
  | _ => raise AttributeError
  end.

(** [receiver = self._agents[receiver_id]; await receiver.inbox.put(m)]; the
    inbox is unbounded, so [put] never waits. *)
Definition inbox_put (receiver_id : string) (m : msg) : M unit :=
  registry ← gets agents;
  if bool_decide (receiver_id ∈ registry) then
    modify (set_objects (alter (set_agent_inbox (λ q, q ++ [m])) receiver_id))
  else raise (KeyError receiver_id).

(** The loop over [self.additional_subscriptions.items()]. *)
Fixpoint collect_receivers (items : odict (gset string)) (topic : value)
    (receivers : gset string) : M (gset string) :=
  match items with
  | [] => mret receivers
  | (sub, aid_set) :: rest =>
      b ← matches sub topic;
      collect_receivers rest topic
        (if b : bool then receivers ∪ aid_set else receivers)
  end.

Definition split_into (msg_content : obj) (meta : pydict) : obj * pydict :=
  match split_content_and_meta msg_content with
  | Some (content, msg_meta) => (content, dict_update meta msg_meta)
  | None => (msg_content, meta)
  end.

Definition _handle_msg (priority : Z) (msg_content : obj) (meta : pydict)
    : M unit :=
  topic ← match meta !! "topic" with
          | Some t => mret t
          | None => raise (KeyError "topic")
          end;
  let '(msg_content, meta) := split_into msg_content meta in
  w ← get;
  if topic_is topic (inbox_topic w) then
    let receiver_id := meta !! "receiver_id" in
    match receiver_id with
    | Some (VStr r) =>
        if truthy (VStr r) && bool_decide (r ∈ agents w) then
          inbox_put r (priority, msg_content, meta)
        else emit (WarnUnknownReceiver receiver_id)
    | _ => emit (WarnUnknownReceiver receiver_id)
    end
  else
    receivers ← collect_receivers (additional_subscriptions w) topic ∅;
    if bool_decide (receivers = ∅) then emit (WarnNoSubscriber topic)
    else
      for_each (elements receivers) (λ receiver_id,
        inbox_put receiver_id (priority, msg_content, meta)).

(** *** Sending *)

Definition _send_external_message (topic : string) (message : obj) : M unit :=
  let encoded_msg := codec_encode message in
  emit (Publish topic encoded_msg).

(** [**kwargs] always binds a dictionary, so [kwargs] is passed as such and
    [kwargs is None] is tested on [Some kwargs]. *)
Definition send_message (content : obj) (receiver_addr : string)
    (receiver_id : option string) (create_acl : option bool)
    (acl_metadata : option pydict) (mqtt_kwargs : option pydict)
    (kwargs : pydict) : M bool :=
  when (bool_decide (is_Some create_acl ∨ is_Some acl_metadata))
    (emit (WarnDeprecated "create_acl and acl_metadata"));;
  when (bool_decide (is_Some mqtt_kwargs)) (emit (WarnDeprecated "mqtt_kwargs"));;
  w ← get;
  let message :=
    if default false create_acl
    then _create_acl (addr w) content receiver_addr receiver_id acl_metadata
    else content in
  let kwargs_object : option pydict := Some kwargs in
  let actual_mqtt_kwargs :=
    match kwargs_object with
    | None => mqtt_kwargs
    | Some _ => kwargs_object
    end in
  let actual_mqtt_kwargs := default ∅ actual_mqtt_kwargs in
  if truthy_addr (addr w)
     && bool_decide (Some receiver_addr = addr w)
     && negb (truthy (dict_get_default actual_mqtt_kwargs "retain" (VBool false)))
  then
    let meta : pydict :=
      {[ "topic" := value_of_addr (addr w);
         "qos" := dict_get_default actual_mqtt_kwargs "qos" (VInt 0);
         "retain" := VBool false; "network_protocol" := VStr "mqtt" ]} in
    let '(content, meta) := split_into message meta in
    modify (set_inbox (λ q, q ++ [(0, content, meta)]));;
    mret true
  else
    _send_external_message receiver_addr message;;
    mret true.

(** *** Subscriptions *)

Definition subscribe_for_agent (aid topic : string) (qos : Z)
    (expected_class : option pyclass) (rc : Z) : M outcome :=
  registry ← gets agents;
  if negb (bool_decide (aid ∈ registry)) then
    raise (ValueError "Given aid is not known")
  else
    match expected_class with
    | Some cls => modify (set_subscriptions_to_class (od_set topic cls))
    | None => mret ()
    end;;
    subs ← gets additional_subscriptions;
    if od_mem topic subs then
      modify (set_additional_subscriptions (od_alter (λ s, s ∪ {[aid]}) topic));;
      mret (Return true)
    else
      modify (set_additional_subscriptions (od_set topic {[aid]}));;
      f ← new_future;
      modify (set_pending_sub_request (Some f));;
      emit (Subscribe topic qos);;
      if negb (bool_decide (rc = MQTT_ERR_SUCCESS)) then
        future_set_result f (VBool false);;
        mret (Return false)
      else
        await_then_return f true.

Definition set_expected_class (topic : string) (expected_class : pyclass)
    : M unit :=
  modify (set_subscriptions_to_class (od_set topic expected_class)).

(** Modelled from the spec: [Container.deregister_agent] of
    [mango.container.core], which is not in the sources: "removes the agent
    from the registry". *)
Definition Container_deregister_agent (aid : string) : M unit :=
  modify (set_agents (λ s, s ∖ {[aid]})).

(** The first loop of [deregister_agent]: every set loses [aid] in place and
    the subscriptions left empty are collected. *)
Fixpoint remove_from_sets (aid : string) (items : odict (gset string))
    : odict (gset string) * list string :=
  match items with
  | [] => ([], [])
  | (subscription, aid_set) :: rest =>
      let aid_set :=
        if bool_decide (aid ∈ aid_set) then aid_set ∖ {[aid]} else aid_set in
      let '(rest', empty_subscriptions) := remove_from_sets aid rest in
      ((subscription, aid_set) :: rest',
       if bool_decide (size aid_set = 0%nat)
       then subscription :: empty_subscriptions else empty_subscriptions)
  end.

Definition deregister_agent (aid : string) : M unit :=
  Container_deregister_agent aid;;
  subs ← gets additional_subscriptions;
  let '(subs', empty_subscriptions) := remove_from_sets aid subs in
  modify (set_additional_subscriptions (λ _, subs'));;
  for_each empty_subscriptions (λ subscription,
    modify (set_additional_subscriptions (od_pop subscription));;
    emit (Unsubscribe subscription)).

(** Modelled from the spec: [Container.shutdown] of [mango.container.core],
    which is not in the sources: the container leaves the Running state. *)
Definition Container_shutdown : M unit := modify (set_running false).

Definition MQTTContainer_shutdown : M unit :=
  Container_shutdown;;
  emit Disconnect;;
  emit LoopStop.

(** *** The agent *)

Inductive handler_outcome :=
| Returns
| Raises (what : string).

Definition new_agent : Agent := mkAgent [] TPending true false.

(** Modelled from the spec: [Container._register_agent] of
    [mango.container.core], which is not in the sources: "allocates an
    identifier, stores the agent, returns the ID"; [aid] is the identifier
    allocated.  The rest is [Agent.__init__]: an empty inbox, the consumer
    task with [raise_exceptions] attached, the [stopped] future. *)
Definition Agent_init (aid : string) : M unit :=
  modify (set_agents (λ s, s ∪ {[aid]}));;
  modify (set_objects (<[aid := new_agent]>)).

(** The agent object [self] of a method call. *)
Definition the_agent (aid : string) : M Agent :=
  objs ← gets objects;
  match objs !! aid with
  | Some a => mret a
  | None => raise (KeyError aid)
  end.

(** [raise_exceptions(fut)], the done callback of the consumer task;
    [fut.exception()] itself raises on a cancelled future. *)
Definition raise_exceptions (aid : string) (fut : task_state) : M unit :=
  match fut with
  | TFailed e => emit (LogCaught aid e);; raise e
  | TCancelled => raise CancelledError
  | _ => mret ()
  end.

(** The task is over: the loop calls its done callbacks. *)
Definition run_done_callbacks (aid : string) : M unit :=
  self ← the_agent aid;
  when (done_callback self)
    (in_loop (raise_exceptions aid (check_inbox_task self))).

(** One turn of the [while True] loop of [_check_inbox]; [handler] is what
    the user's [handle_msg] does with the message. *)
Definition _check_inbox (aid : string) (handler : handler_outcome) : M unit :=
  self ← the_agent aid;
  match check_inbox_task self, agent_inbox self with
  | TPending, (priority, content, meta) :: rest =>
      modify (set_objects (alter (set_agent_inbox (λ _, rest)) aid));;
      let meta := <["priority" := VInt priority]> meta in
      emit (HandleMsg aid content meta);;
      match handler with
      | Returns => emit (InboxTaskDone aid)
      | Raises what =>
          modify (set_objects
            (alter (set_check_inbox_task (TFailed (HandlerError what))) aid));;
          run_done_callbacks aid
      end
  | _, _ => mret ()
  end.

(** [await self._check_inbox_task] *)
Definition await_check_inbox_task (aid : string) : M unit :=
  emit (AwaitTask aid);;
  self ← the_agent aid;
  match task_await (check_inbox_task self) with
  | Some r => lift_res r
  | None => λ w, (Blocked, w)
  end.

Definition Agent_shutdown (aid : string) : M unit :=
  self ← the_agent aid;
  when (negb (stopped self))
    (modify (set_objects (alter (set_stopped true) aid));;
     emit (SetStopped aid));;
  is_running ← gets running;
  when is_running
    (emit (DeregisterAgent aid);;
     deregister_agent aid);;
  try_finally
    (try_except
       (modify (set_objects (alter (set_done_callback false) aid));;
        emit (RemoveDoneCallback aid);;
        modify (set_objects
          (alter (λ a, set_check_inbox_task (task_cancel (check_inbox_task a)) a)
             aid));;
        emit (CancelTask aid);;
        await_check_inbox_task aid;;
        emit (SchedulerStop aid))
       (λ e, bool_decide (e = CancelledError))
       (mret ()))
    (emit (LogShutdown aid)).

(** *** The event loop *)

(** The loop runs the callback posted first. *)
Definition run_callback : M unit :=
  q ← gets ready;
  match q with
  | [] => mret ()
  | cb :: rest =>
      modify (set_ready (λ _, rest));;
      in_loop
        match cb with
        | SetResult f v => future_set_result f v
        | PutNowait m => modify (set_inbox (λ q, q ++ [m]))
        end
  end.

(** Modelled from the spec: the intake loop of [Container] (in
    [mango.container.core], not in the sources), which takes the next entry
    of the container's inbox and runs [_handle_msg] on it "as a separate task
    for every message that is read". *)
Definition dispatch : M unit :=
  q ← gets inbox;
  match q with
  | [] => mret ()
  | (priority, msg_content, meta) :: rest =>
      modify (set_inbox (λ _, rest));;
      in_loop (_handle_msg priority msg_content meta)
  end.

(** What can happen to a container and its agents. *)
Inductive op :=
| CreateAgent (aid : string)
| SubscribeForAgent (aid topic : string) (qos : Z)
    (expected_class : option pyclass) (rc : Z)
| SetExpectedClass (topic : string) (expected_class : pyclass)
| SendMessage (content : obj) (receiver_addr : string)
    (receiver_id : option string) (create_acl : option bool)
    (acl_metadata mqtt_kwargs : option pydict) (kwargs : pydict)
| DeregisterAgentOp (aid : string)
| OnSubscribe
| OnMessage (topic : string) (payload : list Byte.byte) (qos : Z)
    (retain : bool)
| RunCallback
| Dispatch
| CheckInbox (aid : string) (handler : handler_outcome)
| ShutdownAgent (aid : string)
| ShutdownContainer.

Definition run_op (o : op) (w : World) : World :=
  match o with
  | CreateAgent aid =>
      if bool_decide (aid ∈ agents w ∨ is_Some (objects w !! aid)) then w
      else exec (Agent_init aid) w
  | SubscribeForAgent aid topic qos expected_class rc =>
      exec (subscribe_for_agent aid topic qos expected_class rc) w
  | SetExpectedClass topic expected_class =>
      exec (set_expected_class topic expected_class) w
  | SendMessage content receiver_addr receiver_id create_acl acl_metadata
      mqtt_kwargs kwargs =>
      exec (send_message content receiver_addr receiver_id create_acl
              acl_metadata mqtt_kwargs kwargs) w
  | DeregisterAgentOp aid => exec (deregister_agent aid) w
  | OnSubscribe => exec (in_thread on_sub) w
  | OnMessage topic payload qos retain =>
      exec (in_thread (on_msg topic payload qos retain)) w
  | RunCallback => exec run_callback w
  | Dispatch => exec dispatch w
  | CheckInbox aid handler => exec (_check_inbox aid handler) w
  | ShutdownAgent aid => exec (Agent_shutdown aid) w
  | ShutdownContainer => exec MQTTContainer_shutdown w
  end.

(** The world after a history of operations. *)
Definition run (ops : list op) (w : World) : World :=
  foldl (λ w o, run_op o w) w ops.


(** ** Derived notions used in the statements *)

(** The subscriptions once every set has lost [aid]. *)
Definition without (aid : string) (items : odict (gset string))
    : odict (gset string) :=
  prod_map id (λ s, s ∖ {[aid]}) <$> items.

(** The subscriptions that [aid] was the last subscriber of. *)
Definition emptied (aid : string) (items : odict (gset string)) : list string :=
  (filter (λ p, p.2 = ∅) (without aid items)).*1.

(** [subscriptions_to_class] after the first lines of [subscribe_for_agent]. *)
Definition bind_class (topic : string) (expected_class : option pyclass)
    (w : World) : World :=
  match expected_class with
  | Some cls => set_subscriptions_to_class (od_set topic cls) w
  | None => w
  end.

(** How often a topic was subscribed to and unsubscribed from at the broker. *)
Definition is_subscribe (topic : string) (ev : event) : bool :=
  match ev with
  | Subscribe t _ => bool_decide (t = topic)
  | _ => false
  end.

Definition is_unsubscribe (topic : string) (ev : event) : bool :=
  match ev with
  | Unsubscribe t => bool_decide (t = topic)
  | _ => false
  end.

Definition is_publish (ev : event) : bool :=
  match ev with
  | Publish _ _ => true
  | _ => false
  end.

Definition count_events (p : event → bool) (t : list event) : nat :=
  length (filter (λ ev, Is_true (p ev)) t).

Definition subscribe_calls (topic : string) (t : list event) : nat :=
  count_events (is_subscribe topic) t.

Definition unsubscribe_calls (topic : string) (t : list event) : nat :=
  count_events (is_unsubscribe topic) t.

(** An operation is quiet when it leaves the registry, the subscriptions and
    the addresses alone and neither subscribes nor unsubscribes at the
    broker. *)
Definition quiet (w w' : World) : Prop :=
  agents w' = agents w
  ∧ additional_subscriptions w' = additional_subscriptions w
  ∧ inbox_topic w' = inbox_topic w
  ∧ addr w' = addr w
  ∧ ∀ topic,
      subscribe_calls topic (trace w') = subscribe_calls topic (trace w)
      ∧ unsubscribe_calls topic (trace w') = unsubscribe_calls topic (trace w).

(** What holds of the container and its agents after every history. *)
(** A computation preserves a property of the world, however it ends. *)
Definition preserves {A} (P : World → Prop) (m : M A) : Prop :=
  ∀ w, P w → P (exec m w).

(** The part of the invariant about the subscriptions and the registry. *)
Definition subs_inv (w : World) : Prop :=
  NoDup (od_keys (additional_subscriptions w))
  ∧ ∀ sub S, (sub, S) ∈ additional_subscriptions w → S ⊆ agents w.

(** The part of the invariant about the agent objects. *)
Definition agent_ok (a : Agent) : Prop :=
  check_inbox_task a ≠ TFinished
  ∧ (check_inbox_task a = TPending → done_callback a = true).

Definition objs_inv (w : World) : Prop :=
  (∀ aid, aid ∈ agents w → is_Some (objects w !! aid))
  ∧ ∀ aid a, objects w !! aid = Some a → agent_ok a.

(** The loop runs everything that has been posted so far. *)
Definition drain : M unit :=
  q ← gets ready;
  for_each q (λ _, run_callback).

(** A caller that awaits [subscribe_for_agent] before it goes on: when the
    call suspends, the broker acknowledges ([on_sub], in the broker thread)
    and the loop runs what was posted; the call has returned [True] once its
    future is resolved. *)
Definition subscribe_and_wait (aid topic : string) (qos : Z)
    (expected_class : option pyclass) (rc : Z) : M outcome :=
  o ← subscribe_for_agent aid topic qos expected_class rc;
  match o with
  | Return b => mret (Return b)
  | Await f =>
      in_thread on_sub;;
      drain;;
      fs ← gets futures;
      match fs !! f with
      | Some (FResult _) => mret (Return true)
      | _ => mret (Await f)
      end
  end.

(** The agents of a list subscribe to a topic one after the other; the
    results of the calls are collected. *)
Fixpoint subscribe_all (subscribers : list string) (topic : string) (qos : Z)
    (expected_class : option pyclass) (rc : Z) (w : World)
    : list (res outcome) * World :=
  match subscribers with
  | [] => ([], w)
  | aid :: rest =>
      let '(r, w') := subscribe_and_wait aid topic qos expected_class rc w in
      let '(rs, w'') := subscribe_all rest topic qos expected_class rc w' in
      (r :: rs, w'')
  end.

(** The agents of a list deregister one after the other. *)
Definition deregister_all (leaving : list string) (w : World) : World :=
  foldl (λ w aid, exec (deregister_agent aid) w) w leaving.

(** The operation is a call of [subscribe_for_agent] for the topic [a]. *)
Definition subscribes_to (a : string) (o : op) : bool :=
  match o with
  | SubscribeForAgent _ topic _ _ _ => bool_decide (topic = a)
  | _ => false
  end.

(** The inbox address is [a] and no subscription has it as its key. *)
Definition own_topic_free (a : string) (w : World) : Prop :=
  inbox_topic w = Some a ∧ od_get a (additional_subscriptions w) = None.

(** The recipients of a message on [topic], in the words of the spec: the
    union of the agent sets of every subscription whose pattern matches the
    topic. *)
Definition recipients (topic : string) (items : odict (gset string))
    : gset string :=
  ⋃ ((λ p, p.2) <$> filter (λ p, topic_matches_sub p.1 topic = true) items).

(** [inbox.put(m)] on an agent. *)
Definition deliver (m : msg) (a : Agent) : Agent :=
  set_agent_inbox (λ q, q ++ [m]) a.

(** The options ask for the retain flag: [kwargs.get("retain", False)] is
    truthy. *)
Definition retain_requested (kwargs : pydict) : bool :=
  truthy (dict_get_default kwargs "retain" (VBool false)).

(** The deprecation warnings of [send_message]. *)
Definition deprecations (create_acl : option bool)
    (acl_metadata mqtt_kwargs : option pydict) : list event :=
  (if bool_decide (is_Some create_acl ∨ is_Some acl_metadata)
   then [WarnDeprecated "create_acl and acl_metadata"] else [])
  ++ (if bool_decide (is_Some mqtt_kwargs)
      then [WarnDeprecated "mqtt_kwargs"] else []).

(** The message [send_message] sends: the content, wrapped by [_create_acl]
    when asked for. *)
Definition outgoing (w : World) (content : obj) (receiver_addr : string)
    (receiver_id : option string) (create_acl : option bool)
    (acl_metadata : option pydict) : obj :=
  if default false create_acl
  then _create_acl (addr w) content receiver_addr receiver_id acl_metadata
  else content.

(** The entry a short-circuited [send_message] puts into the container's
    inbox. *)
Definition local_entry (message : obj) (receiver_addr : string)
    (kwargs : pydict) : msg :=
  let meta : pydict :=
    {[ "topic" := VStr receiver_addr;
       "qos" := dict_get_default kwargs "qos" (VInt 0);
       "retain" := VBool false; "network_protocol" := VStr "mqtt" ]} in
  (0, (split_into message meta).1, (split_into message meta).2).

(** The calls of [publish] in a trace. *)
Definition publishes (t : list event) : list event :=
  filter (λ ev, Is_true (is_publish ev)) t.

(** The metadata [on_msg] starts from. *)
Definition transport_meta (topic : string) (qos : Z) (retain : bool) : pydict :=
  {[ "network_protocol" := VStr "mqtt"; "topic" := VStr topic;
     "qos" := VInt qos; "retain" := VBool retain ]}.

(** Two calls of [subscribe_for_agent] for new topics, the second issued
    while the first awaits its acknowledgement. *)
Definition two_concurrent_subscriptions (a : option string) (qos : Z) : World :=
  run [CreateAgent "agent0";
       SubscribeForAgent "agent0" "t1" qos None MQTT_ERR_SUCCESS;
       SubscribeForAgent "agent0" "t2" qos None MQTT_ERR_SUCCESS] (init a).

(** [n] acknowledgements of the broker, each run by the loop at once. *)
Fixpoint acknowledgements (n : nat) : list op :=
  match n with
  | O => []
  | S n' => acknowledgements n' ++ [OnSubscribe; RunCallback]
  end.

Definition is_scheduler_stop (ev : event) : bool :=
  match ev with
  | SchedulerStop _ => true
  | _ => false
  end.

(** [Scheduler.stop()] has not been called so far. *)
Definition no_stop (w : World) : Prop :=
  Forall (λ ev, is_scheduler_stop ev = false) (trace w).




(** ** Notions for the further properties *)

(** No subscription is kept with an empty set of agents. *)
Definition nonempty_inv (w : World) : Prop :=
  ∀ sub X, (sub, X) ∈ additional_subscriptions w → X ≠ ∅.

(** The calls made to the broker mirror the subscriptions: a topic has been
    subscribed once more than unsubscribed when it is a key, and as often
    otherwise. *)
Definition balanced (w : World) : Prop :=
  ∀ topic,
    subscribe_calls topic (trace w)
    = (unsubscribe_calls topic (trace w)
       + if od_mem topic (additional_subscriptions w) then 1 else 0)%nat.

(** The subscriptions of which [aid] is the only subscriber, in the order of
    the dictionary, and what is left of the dictionary without [aid]. *)
Definition sole_subscriptions (aid : string) (items : odict (gset string))
    : list string :=
  (filter (λ p, p.2 = {[aid]}) items).*1.

Definition remaining (aid : string) (items : odict (gset string))
    : odict (gset string) :=
  filter (λ p, p.2 ≠ ∅) (without aid items).

(** [Agent.shutdown], piece by piece: the world before the [try], the agent
    after [remove_done_callback] and [cancel], the events of the [try] and
    the [finally], and the way the call ends. *)
Definition shutdown_prefix (aid : string) (self : Agent) (w : World) : World :=
  let w1 :=
    if stopped self then w
    else set_trace (λ t, t ++ [SetStopped aid])
           (set_objects (alter (set_stopped true) aid) w) in
  if running w
  then exec (deregister_agent aid)
         (set_trace (λ t, t ++ [DeregisterAgent aid]) w1)
  else w1.

Definition retire (a : Agent) : Agent :=
  set_check_inbox_task (task_cancel (check_inbox_task a))
    (set_done_callback false a).

Definition shutdown_events (aid : string) (t : task_state) : list event :=
  [RemoveDoneCallback aid; CancelTask aid; AwaitTask aid]
  ++ match t with
     | TFinished => [SchedulerStop aid]
     | _ => []
     end
  ++ [LogShutdown aid].

Definition shutdown_result (t : task_state) : res unit :=
  match t with
  | TFailed e => if bool_decide (e = CancelledError) then Ok () else Err e
  | _ => Ok ()
  end.

(** The three facts about the routing table that hold after every history. *)
Definition routing_inv (w : World) : Prop :=
  subs_inv w ∧ nonempty_inv w ∧ balanced w.

(** Every future the container or the loop refers to has been created. *)
Definition futs_inv (w : World) : Prop :=
  (∀ f, pending_sub_request w = Some f → (f < length (futures w))%nat)
  ∧ ∀ f v, SetResult f v ∈ ready w → (f < length (futures w))%nat.


(** ** [Agent.schedule_task]

    The part of an agent that [schedule_task] touches.  A task is named by
    the number of tasks created before it; calls of the task's own methods
    are events. *)

(** What [schedule_task] attaches to a task with [add_done_callback]. *)
Inductive sched_callable :=
| TaskOnStop                     (* the bound method [task.on_stop] *)
| LambdaRemove (l_task : nat).   (* [lambda: self._scheduled_tasks.remove(l_task)] *)

Inductive sched_event :=
| OnStopCalled (l_task : nat)
| CallbackRaised (l_task : nat) (what : string).

Record Scheduled := mkScheduled {
  _scheduled_tasks : list nat;                       (* self._scheduled_tasks *)
  task_done_callbacks : list (list sched_callable);  (* by task, in the order added *)
  sched_trace : list sched_event
}.

Definition sched_init : Scheduled := mkScheduled [] [] [].

Definition schedule_task (st : Scheduled) : Scheduled :=
  let l_task := length (task_done_callbacks st) in
  mkScheduled (_scheduled_tasks st ++ [l_task])
    (task_done_callbacks st ++ [[TaskOnStop; LambdaRemove l_task]])
    (sched_trace st).

(** [l.remove(x)]: the first occurrence goes; [None] stands for [ValueError]. *)
Fixpoint list_remove (x : nat) (l : list nat) : option (list nat) :=
  match l with
  | [] => None
  | y :: l' => if decide (x = y) then Some l' else (y ::.) <$> list_remove x l'
  end.

(** The [lambda] of [schedule_task] is written without a parameter. *)
Definition lambda_parameters : nat := 0.

(** A call of a done callback with [args] positional arguments.  A function
    called with another number of arguments than it has parameters raises
    [TypeError] and its body does not run; an exception of a callback goes to
    the exception handler of the loop. *)
Definition call_done_callback (args : nat) (l_task : nat) (c : sched_callable)
    (st : Scheduled) : Scheduled :=
  match c with
  | TaskOnStop =>
      mkScheduled (_scheduled_tasks st) (task_done_callbacks st)
        (sched_trace st ++ [OnStopCalled l_task])
  | LambdaRemove t =>
      if decide (args = lambda_parameters) then
        match list_remove t (_scheduled_tasks st) with
        | Some l =>
            mkScheduled l (task_done_callbacks st) (sched_trace st)
        | None =>
            mkScheduled (_scheduled_tasks st) (task_done_callbacks st)
              (sched_trace st ++ [CallbackRaised l_task "ValueError"])
        end
      else
        mkScheduled (_scheduled_tasks st) (task_done_callbacks st)
          (sched_trace st ++ [CallbackRaised l_task "TypeError"])
  end.

(** The task is done: the loop calls its done callbacks, in the order in
    which they were added, each with the task as its one argument, and the
    task forgets them. *)
Definition task_finishes (l_task : nat) (st : Scheduled) : Scheduled :=
  match task_done_callbacks st !! l_task with
  | Some cbs =>
      let st' := mkScheduled (_scheduled_tasks st)
                   (<[l_task := []]> (task_done_callbacks st))
                   (sched_trace st) in
      foldl (λ st c, call_done_callback 1 l_task c st) st' cbs
  | None => st
  end.

Inductive sched_op :=
| ScheduleTask
| TaskFinishes (l_task : nat).

Definition sched_step (st : Scheduled) (o : sched_op) : Scheduled :=
  match o with
  | ScheduleTask => schedule_task st
  | TaskFinishes l_task => task_finishes l_task st
  end.

Definition sched_run (ops : list sched_op) : Scheduled :=
  foldl sched_step sched_init ops.

(** What has been scheduled and has not finished yet. *)
Definition sched_inv (st : Scheduled) : Prop :=
  _scheduled_tasks st = seq 0 (length (task_done_callbacks st))
  ∧ ∀ t cbs, task_done_callbacks st !! t = Some cbs →
      cbs = [] ∨ cbs = [TaskOnStop; LambdaRemove t].

Definition is_schedule_task (o : sched_op) : bool :=
  match o with
  | ScheduleTask => true
  | TaskFinishes _ => false
  end.

(** * Properties *)

(** ** Insertion-ordered dictionaries *)

Lemma od_mem_true {V} (k : string) (d : odict V) :
  od_mem k d = true ↔ is_Some (od_get k d).
Proof. unfold od_mem. by rewrite bool_decide_eq_true. Qed.

Lemma od_mem_false {V} (k : string) (d : odict V) :
  od_mem k d = false ↔ od_get k d = None.
Proof.
  unfold od_mem. rewrite bool_decide_eq_false, eq_None_not_Some. done.
Qed.

Lemma od_get_keys {V} (k : string) (d : odict V) :
  is_Some (od_get k d) ↔ k ∈ od_keys d.
Proof.
  unfold od_keys. induction d as [|[k' v] d IH]; simpl.
  - split; [intros [? ?]; done | intros H; inversion H].
  - case_decide as Hk; subst.
    + split; [intros _; left | eauto].
    + rewrite IH. split; [by right |].
      intros H. apply elem_of_cons in H as [?|?]; done.
Qed.

Lemma od_get_elem {V} (k : string) (v : V) (d : odict V) :
  od_get k d = Some v → (k, v) ∈ d.
Proof.
  induction d as [|[k' v'] d IH]; simpl; [done|].
  case_decide; subst; [intros [= <-]; left | right; auto].
Qed.

Lemma od_elem_get {V} (k : string) (v : V) (d : odict V) :
  NoDup (od_keys d) → (k, v) ∈ d → od_get k d = Some v.
Proof.
  unfold od_keys. induction d as [|[k' v'] d IH]; simpl.
  - intros _ H. inversion H.
  - intros Hnd H. apply NoDup_cons in Hnd as [Hk' Hnd].
    apply elem_of_cons in H as [[= -> ->]|H].
    + by rewrite decide_True.
    + rewrite decide_False; [auto|].
      intros ->. apply Hk'. apply list_elem_of_fmap. by exists (k', v).
Qed.

Lemma od_get_set {V} (k k' : string) (v : V) (d : odict V) :
  od_get k' (od_set k v d) = if decide (k' = k) then Some v else od_get k' d.
Proof.
  induction d as [|[k0 v0] d IH]; simpl.
  - repeat case_decide; congruence.
  - repeat (case_decide; simpl; subst); try congruence.
Qed.

Lemma od_keys_set {V} (k : string) (v : V) (d : odict V) :
  od_get k d = None → od_keys (od_set k v d) = od_keys d ++ [k].
Proof.
  unfold od_keys. induction d as [|[k0 v0] d IH]; simpl; [done|].
  case_decide as Hd; [done|]. intros Hg. csimpl. by rewrite IH.
Qed.

Lemma od_elem_set {V} (k k' : string) (v v' : V) (d : odict V) :
  (k', v') ∈ od_set k v d → (k', v') ∈ d ∨ (k' = k ∧ v' = v).
Proof.
  induction d as [|[k0 v0] d IH]; simpl.
  - intros H. apply list_elem_of_singleton in H as [= -> ->]. by right.
  - case_decide as Hd; subst; intros H; apply elem_of_cons in H as [H|H].
    + injection H as -> ->. by right.
    + left. by right.
    + injection H as -> ->. left. by left.
    + destruct (IH H) as [?|?]; [left; by right | by right].
Qed.

Lemma od_get_alter {V} (f : V → V) (k k' : string) (d : odict V) :
  od_get k' (od_alter f k d)
  = if decide (k' = k) then f <$> od_get k d else od_get k' d.
Proof.
  induction d as [|[k0 v0] d IH]; simpl.
  - by case_decide.
  - repeat (case_decide; simpl; subst); try congruence.
Qed.

Lemma od_keys_alter {V} (f : V → V) (k : string) (d : odict V) :
  od_keys (od_alter f k d) = od_keys d.
Proof.
  unfold od_keys. induction d as [|[k0 v0] d IH]; simpl; [done|].
  case_decide; csimpl; [done | by rewrite IH].
Qed.

Lemma od_elem_alter {V} (f : V → V) (k k' : string) (v' : V) (d : odict V) :
  (k', v') ∈ od_alter f k d →
  (k', v') ∈ d ∨ (k' = k ∧ ∃ v, (k, v) ∈ d ∧ v' = f v).
Proof.
  induction d as [|[k0 v0] d IH]; simpl; [by left|].
  case_decide as Hd; subst; intros H; apply elem_of_cons in H as [H|H].
  - injection H as -> ->. right. split; [done|]. exists v0. split; [by left|done].
  - left. by right.
  - injection H as -> ->. left. by left.
  - destruct (IH H) as [?|(-> & v & Hv & ->)]; [left; by right |].
    right. split; [done|]. exists v. split; [by right | done].
Qed.

Lemma filter_all {A} (P : A → Prop) `{!∀ x, Decision (P x)} (l : list A) :
  Forall P l → filter P l = l.
Proof.
  induction 1 as [|x l Hx Hl IH]; [done|].
  by rewrite filter_cons_True, IH.
Qed.

Lemma od_pop_filter {V} (k : string) (d : odict V) :
  NoDup (od_keys d) → od_pop k d = filter (λ p, p.1 ≠ k) d.
Proof.
  unfold od_keys. induction d as [|[k0 v0] d IH]; [done|].
  rewrite fmap_cons. intros Hnd. apply NoDup_cons in Hnd as [Hk0 Hnd].
  cbn [od_pop]. case_decide as Hd; subst.
  - rewrite filter_cons_False by (simpl; tauto).
    symmetry. apply filter_all.
    apply Forall_forall. intros [k1 v1] Hin Heq. simpl in Heq. subst.
    apply Hk0. apply list_elem_of_fmap. eexists. split; [|exact Hin]. done.
  - rewrite filter_cons_True by (simpl; congruence). by rewrite IH.
Qed.

(** ** Unfolding the monad *)

Ltac unfold_M :=
  unfold exec, result, when, emit, call_soon_threadsafe, in_loop, in_thread,
    try_except, try_finally, lift_res, raise, modify, gets, get,
    mbind, M_bind, mret, M_ret in *.

Lemma world_eta w :
  mkWorld (addr w) (running w) (agents w) (inbox w) (inbox_topic w)
    (additional_subscriptions w) (subscriptions_to_class w)
    (pending_sub_request w) (futures w) (ready w) (awaiting w) (objects w)
    (trace w) = w.
Proof. by destruct w. Qed.

Lemma exec_bind {A B} (m : M A) (k : A → M B) w :
  exec (m ≫= k) w
  = match m w with
    | (Ok a, w') => exec (k a) w'
    | (_, w') => w'
    end.
Proof. unfold exec, mbind, M_bind. by destruct (m w) as [[| |] ?]. Qed.

Lemma result_bind {A B} (m : M A) (k : A → M B) w :
  result (m ≫= k) w
  = match m w with
    | (Ok a, w') => result (k a) w'
    | (Err e, _) => Err e
    | (Blocked, _) => Blocked
    end.
Proof. unfold result, mbind, M_bind. by destruct (m w) as [[| |] ?]. Qed.

(** ** [deregister_agent] *)

Lemma remove_from_sets_fst aid items :
  (remove_from_sets aid items).1 = without aid items.
Proof.
  unfold without. induction items as [|[k S] items IH]; [done|].
  cbn [remove_from_sets]. destruct (remove_from_sets aid items) as [r e].
  simpl in *. rewrite IH. f_equal. unfold prod_map. simpl. f_equal.
  case_bool_decide; [done|]. set_solver.
Qed.

Lemma remove_from_sets_snd aid items :
  (remove_from_sets aid items).2 = emptied aid items.
Proof.
  unfold emptied, without. induction items as [|[k S] items IH]; [done|].
  cbn [remove_from_sets]. destruct (remove_from_sets aid items) as [r e].
  rewrite fmap_cons, filter_cons. cbn [snd fst prod_map id] in *.
  assert ((if bool_decide (aid ∈ S) then S ∖ {[aid]} else S) = S ∖ {[aid]})
    as -> by (case_bool_decide; set_solver).
  case_bool_decide as Hs; case_decide as He; rewrite ?fmap_cons, <- ?IH; try done.
  - apply size_empty_iff in Hs. by apply leibniz_equiv in Hs.
  - rewrite He, size_empty in Hs. done.
Qed.

Lemma for_each_pop (ks : list string) (w : World) :
  for_each ks (λ subscription,
    modify (set_additional_subscriptions (od_pop subscription));;
    emit (Unsubscribe subscription)) w
  = (Ok (),
     set_trace (λ t, t ++ (Unsubscribe <$> ks))
       (set_additional_subscriptions (λ d, foldl (λ d k, od_pop k d) d ks) w)).
Proof.
  revert w. induction ks as [|k ks IH]; intros w.
  - unfold_M. simpl. unfold set_trace, set_additional_subscriptions. simpl.
    by rewrite app_nil_r, world_eta.
  - cbn [for_each]. unfold_M. simpl. rewrite IH.
    unfold set_trace, set_additional_subscriptions. simpl.
    by rewrite <- app_assoc.
Qed.

Lemma deregister_agent_eq (aid : string) (w : World) :
  deregister_agent aid w
  = (Ok (),
     set_trace (λ t, t ++ (Unsubscribe <$> emptied aid (additional_subscriptions w)))
       (set_additional_subscriptions
          (λ d, foldl (λ d k, od_pop k d) (without aid d) (emptied aid d))
          (set_agents (λ s, s ∖ {[aid]}) w))).
Proof.
  unfold deregister_agent, Container_deregister_agent.
  pose proof (remove_from_sets_fst aid (additional_subscriptions w)) as H1.
  pose proof (remove_from_sets_snd aid (additional_subscriptions w)) as H2.
  unfold_M. simpl.
  destruct (remove_from_sets aid (additional_subscriptions w)) as [r e].
  simpl in *. subst. rewrite for_each_pop. done.
Qed.

(** ** [subscribe_for_agent], case by case *)

Lemma bind_class_fields topic cls w :
  agents (bind_class topic cls w) = agents w
  ∧ additional_subscriptions (bind_class topic cls w) = additional_subscriptions w
  ∧ futures (bind_class topic cls w) = futures w
  ∧ trace (bind_class topic cls w) = trace w
  ∧ objects (bind_class topic cls w) = objects w
  ∧ inbox_topic (bind_class topic cls w) = inbox_topic w.
Proof. by destruct cls. Qed.

Lemma subscribe_unknown aid topic qos cls rc w :
  aid ∉ agents w →
  subscribe_for_agent aid topic qos cls rc w
  = (Err (ValueError "Given aid is not known"), w).
Proof.
  intros Hn. unfold subscribe_for_agent. unfold_M. simpl.
  by rewrite bool_decide_eq_false_2.
Qed.

Lemma subscribe_present aid topic qos cls rc w :
  aid ∈ agents w →
  od_mem topic (additional_subscriptions w) = true →
  subscribe_for_agent aid topic qos cls rc w
  = (Ok (Return true),
     set_additional_subscriptions (od_alter (λ s, s ∪ {[aid]}) topic)
       (bind_class topic cls w)).
Proof.
  intros Hin Hm. unfold subscribe_for_agent. unfold_M. simpl.
  rewrite bool_decide_eq_true_2 by done. simpl.
  destruct cls; simpl; by rewrite Hm.
Qed.

Lemma subscribe_rejected aid topic qos cls rc w :
  aid ∈ agents w →
  od_mem topic (additional_subscriptions w) = false →
  rc ≠ MQTT_ERR_SUCCESS →
  subscribe_for_agent aid topic qos cls rc w
  = (Ok (Return false),
     set_awaiting (filter (λ g, g ≠ length (futures w)))
       (set_futures (λ fs, fs ++ [FResult (VBool false)])
          (set_trace (λ t, t ++ [Subscribe topic qos])
             (set_pending_sub_request (Some (length (futures w)))
                (set_additional_subscriptions (od_set topic {[aid]})
                   (bind_class topic cls w)))))).
Proof.
  intros Hin Hm Hrc. unfold subscribe_for_agent, new_future, future_set_result.
  unfold_M. simpl.
  rewrite bool_decide_eq_true_2 by done. simpl.
  destruct cls; simpl; rewrite Hm; simpl;
    rewrite (bool_decide_eq_false_2 _ Hrc); simpl;
    rewrite list_lookup_middle by done; simpl;
    unfold set_awaiting, set_futures; simpl;
    rewrite insert_app_r_alt by done;
    by rewrite Nat.sub_diag.
Qed.

Lemma subscribe_accepted aid topic qos cls w :
  aid ∈ agents w →
  od_mem topic (additional_subscriptions w) = false →
  subscribe_for_agent aid topic qos cls MQTT_ERR_SUCCESS w
  = (Ok (Await (length (futures w))),
     set_awaiting (λ l, l ++ [length (futures w)])
       (set_futures (λ fs, fs ++ [FPending])
          (set_trace (λ t, t ++ [Subscribe topic qos])
             (set_pending_sub_request (Some (length (futures w)))
                (set_additional_subscriptions (od_set topic {[aid]})
                   (bind_class topic cls w)))))).
Proof.
  intros Hin Hm. unfold subscribe_for_agent, new_future, await_then_return.
  unfold_M. simpl.
  rewrite bool_decide_eq_true_2 by done. simpl.
  destruct cls; simpl; rewrite Hm; simpl;
    rewrite list_lookup_middle by done; done.
Qed.

(** ** Counting broker calls in the trace *)

Lemma count_events_app p t1 t2 :
  count_events p (t1 ++ t2) = (count_events p t1 + count_events p t2)%nat.
Proof. unfold count_events. by rewrite filter_app, length_app. Qed.

Lemma count_events_snoc p t ev :
  count_events p (t ++ [ev])
  = (count_events p t + if p ev then 1 else 0)%nat.
Proof.
  rewrite count_events_app. f_equal. unfold count_events.
  rewrite filter_cons. destruct (p ev); by simpl.
Qed.

Lemma count_events_none p t :
  Forall (λ ev, p ev = false) t → count_events p t = 0%nat.
Proof.
  unfold count_events. induction 1 as [|ev t Hev Ht IH]; [done|].
  rewrite filter_cons_False; [done|]. rewrite Hev. by intros [].
Qed.

(** ** Quiet operations *)

#[local] Instance quiet_preorder : PreOrder quiet.
Proof.
  split.
  - by intros w.
  - intros w1 w2 w3 (?&?&?&?&H12) (?&?&?&?&H23).
    repeat split; try congruence; destruct (H12 topic), (H23 topic); congruence.
Qed.

Lemma quiet_set_trace ev w :
  (∀ topic, is_subscribe topic ev = false ∧ is_unsubscribe topic ev = false) →
  quiet w (set_trace (λ t, t ++ [ev]) w).
Proof.
  intros Hev. repeat split; try done; simpl;
    unfold subscribe_calls, unsubscribe_calls; rewrite count_events_snoc;
    destruct (Hev topic) as [H1 H2]; rewrite ?H1, ?H2; lia.
Qed.

Lemma quiet_bind {A B} (m : M A) (k : A → M B) w :
  quiet w (exec m w) →
  (∀ a w', quiet w' (exec (k a) w')) →
  quiet w (exec (m ≫= k) w).
Proof.
  intros Hm Hk. unfold exec, mbind, M_bind in *.
  destruct (m w) as [[a| |] w']; simpl in *; try done.
  etrans; [exact Hm | apply Hk].
Qed.

Lemma quiet_for_each {B} (xs : list B) (body : B → M unit) w :
  (∀ x w', quiet w' (exec (body x) w')) →
  quiet w (exec (for_each xs body) w).
Proof.
  intros Hbody. revert w. induction xs as [|x xs IH]; intros w; [done|].
  cbn [for_each]. apply quiet_bind; [apply Hbody | intros _ w'; apply IH].
Qed.

Lemma quiet_in_loop (m : M unit) w :
  quiet w (exec m w) → quiet w (exec (in_loop m) w).
Proof.
  unfold exec, in_loop. destruct (m w) as [[[]|e|] w']; simpl; try done.
  intros H. etrans; [exact H | by apply quiet_set_trace].
Qed.

Lemma quiet_in_thread (m : M unit) w :
  quiet w (exec m w) → quiet w (exec (in_thread m) w).
Proof.
  unfold exec, in_thread. destruct (m w) as [[[]|e|] w']; simpl; try done.
  intros H. etrans; [exact H | by apply quiet_set_trace].
Qed.

(** Straight-line code is settled by running it. *)
Ltac quiet_by_cases :=
  unfold_M; simpl; repeat case_match; simplify_eq/=;
  repeat split; simpl; try done;
  unfold subscribe_calls, unsubscribe_calls;
  rewrite ?count_events_snoc; simpl; lia.

Lemma quiet_inbox_put receiver_id m w :
  quiet w (exec (inbox_put receiver_id m) w).
Proof. unfold inbox_put. quiet_by_cases. Qed.

Lemma collect_receivers_world items topic receivers w :
  (collect_receivers items topic receivers w).2 = w.
Proof.
  revert receivers. induction items as [|[sub S] items IH]; intros receivers.
  - done.
  - cbn [collect_receivers]. unfold matches. unfold_M.
    destruct topic; simpl; first [done | apply IH].
Qed.

Lemma quiet_handle_msg priority msg_content meta w :
  quiet w (exec (_handle_msg priority msg_content meta) w).
Proof.
  unfold _handle_msg.
  apply quiet_bind; [quiet_by_cases|]. intros topic w1.
  destruct (split_into msg_content meta) as [content meta'].
  apply quiet_bind; [done|]. intros w2 w3.
  destruct (topic_is topic (inbox_topic w2)).
  - repeat case_match; try apply quiet_inbox_put; quiet_by_cases.
  - apply quiet_bind.
    + unfold exec. by rewrite collect_receivers_world.
    + intros receivers w4. case_bool_decide; [quiet_by_cases|].
      apply quiet_for_each. intros. apply quiet_inbox_put.
Qed.

Lemma quiet_send_message content r rid ca am mk kw w :
  quiet w (exec (send_message content r rid ca am mk kw) w).
Proof.
  unfold send_message, _send_external_message. quiet_by_cases.
Qed.

Lemma quiet_on_sub w : quiet w (exec (in_thread on_sub) w).
Proof. unfold on_sub. quiet_by_cases. Qed.

Lemma quiet_on_msg topic payload qos retain w :
  quiet w (exec (in_thread (on_msg topic payload qos retain)) w).
Proof.
  unfold on_msg, decode_mqtt_msg, extract_meta, get_content. quiet_by_cases.
Qed.

Lemma quiet_run_callback w : quiet w (exec run_callback w).
Proof. unfold run_callback, future_set_result. quiet_by_cases. Qed.

Lemma quiet_dispatch w : quiet w (exec dispatch w).
Proof.
  unfold dispatch. apply quiet_bind; [done|]. intros q w1.
  destruct q as [|[[priority content] meta] rest]; [done|].
  apply quiet_bind; [quiet_by_cases|]. intros _ w2.
  apply quiet_in_loop, quiet_handle_msg.
Qed.

Lemma quiet_check_inbox aid handler w :
  quiet w (exec (_check_inbox aid handler) w).
Proof.
  unfold _check_inbox, run_done_callbacks, raise_exceptions, the_agent.
  quiet_by_cases.
Qed.

Lemma quiet_set_expected_class topic cls w :
  quiet w (exec (set_expected_class topic cls) w).
Proof. unfold set_expected_class. quiet_by_cases. Qed.

Lemma quiet_container_shutdown w : quiet w (exec MQTTContainer_shutdown w).
Proof. unfold MQTTContainer_shutdown, Container_shutdown. quiet_by_cases. Qed.

(** ** Preservation, rule by rule *)

Section Preserves.

Context (P : World → Prop).

Lemma preserves_ret {A} (a : A) : preserves P (mret a).
Proof. by intros w. Qed.

Lemma preserves_bind {A B} (m : M A) (k : A → M B) :
  preserves P m → (∀ a, preserves P (k a)) → preserves P (m ≫= k).
Proof.
  intros Hm Hk w Hw. specialize (Hm w Hw).
  unfold exec, mbind, M_bind in *.
  destruct (m w) as [[a| |] w']; simpl in *; try done. by apply Hk.
Qed.

Lemma preserves_gets {A} (f : World → A) : preserves P (gets f).
Proof. by intros w. Qed.

Lemma preserves_get : preserves P get.
Proof. by intros w. Qed.

Lemma preserves_raise {A} e : preserves P (raise (A:=A) e).
Proof. by intros w. Qed.

Lemma preserves_lift_res {A} (r : res A) : preserves P (lift_res r).
Proof. by intros w. Qed.

Lemma preserves_modify (f : World → World) :
  (∀ w, P w → P (f w)) → preserves P (modify f).
Proof. intros Hf w Hw. by apply Hf. Qed.

Lemma preserves_when (b : bool) (m : M unit) :
  preserves P m → preserves P (when b m).
Proof. intros Hm. destruct b; [done | apply preserves_ret]. Qed.

Lemma preserves_for_each {B} (xs : list B) (body : B → M unit) :
  (∀ x, preserves P (body x)) → preserves P (for_each xs body).
Proof.
  intros Hbody. induction xs as [|x xs IH]; [apply preserves_ret|].
  cbn [for_each]. apply preserves_bind; [apply Hbody | by intros _].
Qed.

Lemma preserves_try_except {A} (body : M A) catches (handler : M A) :
  preserves P body → preserves P handler →
  preserves P (try_except body catches handler).
Proof.
  intros Hb Hh w Hw. specialize (Hb w Hw). unfold exec, try_except in *.
  destruct (body w) as [[a|e|] w']; simpl in *; try done.
  destruct (catches e); [by apply Hh | done].
Qed.

Lemma preserves_try_finally {A} (body : M A) (fin : M unit) :
  preserves P body → preserves P fin → preserves P (try_finally body fin).
Proof.
  intros Hb Hf w Hw. specialize (Hb w Hw). unfold exec, try_finally in *.
  destruct (body w) as [[a|e|] w']; simpl in *; try done;
    specialize (Hf w' Hb); unfold exec in Hf;
    destruct (fin w') as [[[]|e'|] w'']; done.
Qed.

(** The property does not read the trace. *)
Hypothesis P_trace : ∀ f w, P w → P (set_trace f w).

Lemma preserves_emit ev : preserves P (emit ev).
Proof. intros w Hw. by apply P_trace. Qed.

Lemma preserves_in_loop (m : M unit) : preserves P m → preserves P (in_loop m).
Proof.
  intros Hm w Hw. specialize (Hm w Hw). unfold exec, in_loop in *.
  destruct (m w) as [[[]|e|] w']; simpl in *; try done. by apply P_trace.
Qed.

Lemma preserves_in_thread (m : M unit) :
  preserves P m → preserves P (in_thread m).
Proof.
  intros Hm w Hw. specialize (Hm w Hw). unfold exec, in_thread in *.
  destruct (m w) as [[[]|e|] w']; simpl in *; try done. by apply P_trace.
Qed.

End Preserves.

(** ** The subscriptions and the registry *)

Lemma od_elem_pop {V} (k k' : string) (v : V) (d : odict V) :
  (k, v) ∈ od_pop k' d → (k, v) ∈ d.
Proof.
  induction d as [|[k0 v0] d IH]; simpl; [done|].
  case_decide as Hd; subst; intros H.
  - by right.
  - apply elem_of_cons in H as [H|H]; [rewrite H; by left | right; auto].
Qed.

Lemma od_keys_pop_nodup {V} (k : string) (d : odict V) :
  NoDup (od_keys d) → NoDup (od_keys (od_pop k d)).
Proof.
  intros Hnd. rewrite od_pop_filter by done. unfold od_keys in *.
  refine (sublist_NoDup _ _ Hnd _). apply fmap_sublist, sublist_filter.
Qed.

Lemma od_get_pop {V} (k k' : string) (d : odict V) :
  NoDup (od_keys d) →
  od_get k (od_pop k' d) = if decide (k = k') then None else od_get k d.
Proof.
  unfold od_keys. induction d as [|[k0 v0] d IH]; simpl.
  - by case_decide.
  - intros Hnd. apply NoDup_cons in Hnd as [Hk0 Hnd].
    repeat (case_decide; simpl; subst); try congruence; auto.
    all: try (rewrite IH by done; by rewrite ?decide_True, ?decide_False by done).
    apply eq_None_not_Some. intros Hs. apply Hk0.
    by apply (od_get_keys k0 d).
Qed.

Lemma pops_elem {V} (ks : list string) (k : string) (v : V) (d : odict V) :
  (k, v) ∈ foldl (λ d k, od_pop k d) d ks → (k, v) ∈ d.
Proof.
  revert d. induction ks as [|k0 ks IH]; intros d; simpl; [done|].
  intros H. apply IH in H. by apply od_elem_pop in H.
Qed.

Lemma pops_nodup {V} (ks : list string) (d : odict V) :
  NoDup (od_keys d) → NoDup (od_keys (foldl (λ d k, od_pop k d) d ks)).
Proof.
  revert d. induction ks as [|k0 ks IH]; intros d; simpl; [done|].
  intros H. by apply IH, od_keys_pop_nodup.
Qed.

Lemma pops_get {V} (ks : list string) (k : string) (d : odict V) :
  NoDup (od_keys d) →
  od_get k (foldl (λ d k, od_pop k d) d ks)
  = if decide (k ∈ ks) then None else od_get k d.
Proof.
  revert d. induction ks as [|k0 ks IH]; intros d Hnd; cbn [foldl].
  - rewrite decide_False; [done | by intros ?%elem_of_nil].
  - rewrite IH by by apply od_keys_pop_nodup. rewrite od_get_pop by done.
    repeat case_decide; try done; set_solver.
Qed.

Lemma without_keys aid d : od_keys (without aid d) = od_keys d.
Proof.
  unfold od_keys, without. rewrite <- list_fmap_compose.
  apply list_fmap_ext. by intros _ [k S] _.
Qed.

Lemma without_get aid k d :
  od_get k (without aid d) = (λ S, S ∖ {[aid]}) <$> od_get k d.
Proof.
  unfold without. induction d as [|[k0 S0] d IH]; [done|].
  rewrite fmap_cons. simpl. by case_decide.
Qed.

Lemma without_elem aid k S' d :
  (k, S') ∈ without aid d → ∃ S, (k, S) ∈ d ∧ S' = S ∖ {[aid]}.
Proof.
  unfold without. intros ([k0 S0] & [= -> ->] & Hin)%list_elem_of_fmap.
  by exists S0.
Qed.

Lemma emptied_elem aid k d :
  NoDup (od_keys d) →
  k ∈ emptied aid d ↔ ∃ S, od_get k d = Some S ∧ S ∖ {[aid]} = ∅.
Proof.
  intros Hnd. unfold emptied. rewrite list_elem_of_fmap. split.
  - intros ([k0 S0] & -> & [He Hin]%list_elem_of_filter). simpl in *.
    apply without_elem in Hin as (S & Hin & ->).
    exists S. split; [by apply od_elem_get | done].
  - intros (S & Hget & He). exists (k, S ∖ {[aid]}). split; [done|].
    apply list_elem_of_filter. split; [done|].
    apply od_get_elem. by rewrite without_get, Hget.
Qed.

Lemma emptied_nodup aid d : NoDup (od_keys d) → NoDup (emptied aid d).
Proof.
  intros Hnd. unfold emptied. rewrite <- (without_keys aid) in Hnd.
  refine (sublist_NoDup _ _ Hnd _). apply fmap_sublist, sublist_filter.
Qed.

Lemma unsubscribe_calls_fmap topic (ks : list string) :
  NoDup ks →
  unsubscribe_calls topic (Unsubscribe <$> ks)
  = if decide (topic ∈ ks) then 1%nat else 0%nat.
Proof.
  unfold unsubscribe_calls, count_events.
  induction 1 as [|k ks Hk Hnd IH]; [done|].
  rewrite fmap_cons, filter_cons. simpl. case_bool_decide as Hkt; subst.
  - rewrite decide_True by done. simpl. rewrite IH.
    rewrite decide_False by done. by rewrite decide_True by by left.
  - rewrite decide_False by by intros []. rewrite IH.
    repeat case_decide; try done; set_solver.
Qed.

Lemma subscribe_calls_fmap topic (ks : list string) :
  subscribe_calls topic (Unsubscribe <$> ks) = 0%nat.
Proof.
  apply count_events_none, Forall_forall.
  by intros ev (k & -> & _)%list_elem_of_fmap.
Qed.

Lemma subs_inv_frame w w' :
  agents w' = agents w →
  additional_subscriptions w' = additional_subscriptions w →
  subs_inv w → subs_inv w'.
Proof. unfold subs_inv. by intros -> ->. Qed.

Lemma subs_inv_quiet w w' : quiet w w' → subs_inv w → subs_inv w'.
Proof. intros (?&?&_). by apply subs_inv_frame. Qed.

Lemma subs_inv_deregister aid : preserves subs_inv (deregister_agent aid).
Proof.
  intros w [Hnd Hsub]. unfold exec. rewrite deregister_agent_eq. simpl.
  split; simpl.
  - apply pops_nodup. by rewrite without_keys.
  - intros sub S' Hin. apply pops_elem, without_elem in Hin as (S & Hin & ->).
    specialize (Hsub sub S Hin). set_solver.
Qed.

Lemma subs_inv_subscribe aid topic qos cls rc :
  preserves subs_inv (subscribe_for_agent aid topic qos cls rc).
Proof.
  intros w [Hnd Hsub]. unfold exec.
  destruct (bind_class_fields topic cls w) as (Ha & Hs & _).
  destruct (decide (aid ∈ agents w)) as [Hin|Hin];
    [|by rewrite subscribe_unknown].
  destruct (od_mem topic (additional_subscriptions w)) eqn:Hm.
  - rewrite subscribe_present by done. split; simpl; rewrite Hs, ?Ha.
    + by rewrite od_keys_alter.
    + intros sub S [H|(-> & S0 & H & ->)]%od_elem_alter; [eauto|].
      specialize (Hsub _ _ H). set_solver.
  - assert (subs_inv (set_additional_subscriptions (od_set topic {[aid]})
                        (bind_class topic cls w))) as Hgoal.
    { split; simpl; rewrite Hs, ?Ha.
      - rewrite od_keys_set by by apply od_mem_false.
        apply NoDup_app. split_and!; [done| |apply NoDup_singleton].
        intros k Hk ->%list_elem_of_singleton.
        apply od_get_keys in Hk. apply od_mem_false in Hm.
        rewrite Hm in Hk. by destruct Hk.
      - intros sub S [H|[-> ->]]%od_elem_set; [eauto | set_solver]. }
    destruct (decide (rc = MQTT_ERR_SUCCESS)) as [->|Hrc].
    + by rewrite subscribe_accepted.
    + by rewrite subscribe_rejected.
Qed.

(** ** The invariant of the subscriptions, operation by operation *)

Lemma subs_inv_trace f w : subs_inv w → subs_inv (set_trace f w).
Proof. by apply subs_inv_frame. Qed.

(** Walks through the code of a method; a [modify] that is not a frame for
    the property is left to the user. *)
Ltac preserves_with frame emit_tac :=
  repeat (cbv beta; lazymatch goal with
    | |- preserves _ (_ ≫= _) => apply preserves_bind; [|intros ?]
    | |- preserves _ (mret _) => apply preserves_ret
    | |- preserves _ (gets _) => apply preserves_gets
    | |- preserves _ get => apply preserves_get
    | |- preserves _ (raise _) => apply preserves_raise
    | |- preserves _ (lift_res _) => apply preserves_lift_res
    | |- preserves _ (when _ _) => apply preserves_when
    | |- preserves _ (for_each _ _) => apply preserves_for_each; intros ?
    | |- preserves _ (try_except _ _ _) => apply preserves_try_except
    | |- preserves _ (try_finally _ _) => apply preserves_try_finally
    | |- preserves _ (emit _) => emit_tac
    | |- preserves _ (in_loop _) => emit_tac
    | |- preserves _ (in_thread _) => emit_tac
    | |- preserves _ (modify _) =>
        apply preserves_modify;
        let w0 := fresh "w" in let H0 := fresh "H" in
        intros w0 H0; eapply frame; [..|exact H0]; reflexivity
    | |- preserves _ (λ w, (Blocked, w)) => by intros ?
    | _ => progress case_match
    end).

Ltac preserves_go frame ptrace :=
  preserves_with frame
    ltac:(first [ apply (preserves_emit _ ptrace)
                | apply (preserves_in_loop _ ptrace)
                | apply (preserves_in_thread _ ptrace) ]).

Lemma subs_inv_shutdown aid : preserves subs_inv (Agent_shutdown aid).
Proof.
  unfold Agent_shutdown, await_check_inbox_task, the_agent.
  preserves_go subs_inv_frame subs_inv_trace. apply subs_inv_deregister.
Qed.

Lemma subs_inv_init a : subs_inv (init a).
Proof. split; simpl; [apply NoDup_nil_2 | by intros ? ? ?%elem_of_nil]. Qed.

Lemma subs_inv_run_op o w : subs_inv w → subs_inv (run_op o w).
Proof.
  destruct o; simpl.
  - case_bool_decide; [done|]. intros [Hnd Hsub]. split; simpl; [done|].
    intros sub S Hin. specialize (Hsub _ _ Hin). set_solver.
  - apply subs_inv_subscribe.
  - apply subs_inv_quiet, quiet_set_expected_class.
  - apply subs_inv_quiet, quiet_send_message.
  - apply subs_inv_deregister.
  - apply subs_inv_quiet, quiet_on_sub.
  - apply subs_inv_quiet, quiet_on_msg.
  - apply subs_inv_quiet, quiet_run_callback.
  - apply subs_inv_quiet, quiet_dispatch.
  - apply subs_inv_quiet, quiet_check_inbox.
  - apply subs_inv_shutdown.
  - apply subs_inv_quiet, quiet_container_shutdown.
Qed.

Lemma run_snoc ops o w : run (ops ++ [o]) w = run_op o (run ops w).
Proof. unfold run. by rewrite foldl_app. Qed.

Lemma subs_inv_run ops a : subs_inv (run ops (init a)).
Proof.
  induction ops as [|o ops IH] using rev_ind; [apply subs_inv_init|].
  rewrite run_snoc. by apply subs_inv_run_op.
Qed.

(** ** The invariant of the agent objects, operation by operation *)

Lemma objs_inv_frame w w' :
  agents w' = agents w → objects w' = objects w → objs_inv w → objs_inv w'.
Proof. unfold objs_inv. by intros -> ->. Qed.

Lemma objs_inv_trace f w : objs_inv w → objs_inv (set_trace f w).
Proof. by apply objs_inv_frame. Qed.

Lemma objs_inv_alter f aid w :
  (∀ a, agent_ok a → agent_ok (f a)) →
  objs_inv w → objs_inv (set_objects (alter f aid) w).
Proof.
  intros Hf [Hdom Hok]. split; simpl.
  - intros aid' Hin. rewrite lookup_alter. case_decide; subst.
    + destruct (Hdom _ Hin) as [a ->]. by eexists.
    + by apply Hdom.
  - intros aid' a. rewrite lookup_alter. case_decide; subst; [|apply Hok].
    destruct (objects w !! aid') as [a0|] eqn:Ha; [|done].
    intros [= <-]. apply Hf. by eapply Hok.
Qed.

Lemma objs_inv_less_agents f w :
  (∀ s, f s ⊆ s) → objs_inv w → objs_inv (set_agents f w).
Proof.
  intros Hf [Hdom Hok]. split; simpl; [|done].
  intros aid Hin. apply Hdom. by apply Hf.
Qed.

Lemma objs_inv_deregister aid : preserves objs_inv (deregister_agent aid).
Proof.
  intros w Hw. unfold exec. rewrite deregister_agent_eq. simpl.
  apply objs_inv_trace.
  apply (objs_inv_frame (set_agents (λ s, s ∖ {[aid]}) w)); [done..|].
  apply objs_inv_less_agents; [set_solver | done].
Qed.

Lemma objs_inv_inbox_put receiver_id m :
  preserves objs_inv (inbox_put receiver_id m).
Proof.
  unfold inbox_put. preserves_go objs_inv_frame objs_inv_trace.
  apply preserves_modify. intros w Hw. by apply objs_inv_alter.
Qed.

Lemma objs_inv_collect items topic receivers :
  preserves objs_inv (collect_receivers items topic receivers).
Proof. intros w Hw. unfold exec. by rewrite collect_receivers_world. Qed.

Lemma objs_inv_handle_msg priority msg_content meta :
  preserves objs_inv (_handle_msg priority msg_content meta).
Proof.
  unfold _handle_msg.
  preserves_go objs_inv_frame objs_inv_trace;
    first [apply objs_inv_inbox_put | apply objs_inv_collect].
Qed.

Lemma objs_inv_check_inbox aid handler :
  preserves objs_inv (_check_inbox aid handler).
Proof.
  unfold _check_inbox, run_done_callbacks, raise_exceptions, the_agent.
  preserves_go objs_inv_frame objs_inv_trace.
  all: apply preserves_modify; intros w Hw; apply objs_inv_alter; [|done].
  all: intros ag [? ?]; split; simpl; done.
Qed.

Lemma objs_inv_subscribe aid topic qos cls rc :
  preserves objs_inv (subscribe_for_agent aid topic qos cls rc).
Proof.
  unfold subscribe_for_agent, new_future, future_set_result, await_then_return.
  preserves_go objs_inv_frame objs_inv_trace.
Qed.

Lemma objs_inv_send_message content r rid ca am mk kw :
  preserves objs_inv (send_message content r rid ca am mk kw).
Proof.
  unfold send_message, _send_external_message.
  preserves_go objs_inv_frame objs_inv_trace.
Qed.

Lemma objs_inv_on_msg topic payload qos retain :
  preserves objs_inv (in_thread (on_msg topic payload qos retain)).
Proof.
  unfold on_msg, decode_mqtt_msg, extract_meta, get_content,
    call_soon_threadsafe.
  preserves_go objs_inv_frame objs_inv_trace.
Qed.

Lemma objs_inv_on_sub : preserves objs_inv (in_thread on_sub).
Proof.
  unfold on_sub, call_soon_threadsafe.
  preserves_go objs_inv_frame objs_inv_trace.
Qed.

Lemma objs_inv_run_callback : preserves objs_inv run_callback.
Proof.
  unfold run_callback, future_set_result.
  preserves_go objs_inv_frame objs_inv_trace.
Qed.

Lemma objs_inv_dispatch : preserves objs_inv dispatch.
Proof.
  unfold dispatch. preserves_go objs_inv_frame objs_inv_trace.
  apply objs_inv_handle_msg.
Qed.
Lemma agent_ok_cancel a :
  agent_ok a →
  agent_ok (set_check_inbox_task
              (task_cancel (check_inbox_task (set_done_callback false a)))
              (set_done_callback false a)).
Proof.
  intros [Hf Hp]. split; simpl; destruct (check_inbox_task a); done.
Qed.

Lemma objs_inv_shutdown aid : preserves objs_inv (Agent_shutdown aid).
Proof.
  unfold Agent_shutdown.
  apply preserves_bind;
    [unfold the_agent; preserves_go objs_inv_frame objs_inv_trace|].
  intros self. apply preserves_bind.
  { preserves_go objs_inv_frame objs_inv_trace.
    apply preserves_modify. intros w Hw. apply objs_inv_alter; [|done].
    by intros a [? ?]. }
  intros _. apply preserves_bind; [apply preserves_gets|]. intros is_running.
  apply preserves_bind.
  { preserves_go objs_inv_frame objs_inv_trace. apply objs_inv_deregister. }
  intros _.
  apply preserves_try_finally; [|apply (preserves_emit _ objs_inv_trace)].
  apply preserves_try_except; [|apply preserves_ret].
  intros w Hw.
  assert (objs_inv (set_objects (alter (λ a, set_check_inbox_task
              (task_cancel (check_inbox_task (set_done_callback false a)))
              (set_done_callback false a)) aid) w)) as Hw'.
  { apply objs_inv_alter; [apply agent_ok_cancel | done]. }
  unfold await_check_inbox_task, the_agent. unfold_M. simpl.
  rewrite alter_alter_eq.
  repeat case_match; simplify_eq/=;
    (eapply objs_inv_frame; [..|exact Hw']; simpl; try reflexivity;
     by rewrite alter_alter_eq).
Qed.

Lemma objs_inv_init a : objs_inv (init a).
Proof. split; simpl; [set_solver | by intros ? ? ?%lookup_empty_Some]. Qed.

Lemma objs_inv_run_op o w : objs_inv w → objs_inv (run_op o w).
Proof.
  destruct o; simpl.
  - case_bool_decide as Hfresh; [done|]. intros [Hdom Hok].
    split; simpl.
    + intros aid' [Hin| ->%elem_of_singleton]%elem_of_union.
      * rewrite lookup_insert_ne; [by apply Hdom|].
        intros ->. apply Hfresh. by left.
      * rewrite lookup_insert_eq. by eexists.
    + intros aid' a. rewrite lookup_insert. case_decide; subst; [|apply Hok].
      by intros [= <-].
  - apply objs_inv_subscribe.
  - by apply objs_inv_frame.
  - apply objs_inv_send_message.
  - apply objs_inv_deregister.
  - apply objs_inv_on_sub.
  - apply objs_inv_on_msg.
  - apply objs_inv_run_callback.
  - apply objs_inv_dispatch.
  - apply objs_inv_check_inbox.
  - apply objs_inv_shutdown.
  - by apply objs_inv_frame.
Qed.

Lemma objs_inv_run ops a : objs_inv (run ops (init a)).
Proof.
  induction ops as [|o ops IH] using rev_ind; [apply objs_inv_init|].
  rewrite run_snoc. by apply objs_inv_run_op.
Qed.

(** ** A rejected subscription *)

(** C9. Subscription failure is not atomic: when a registered agent
    subscribes to a topic that has no entry yet and the broker client rejects
    the call, [subscribe_for_agent] issues the broker call and returns
    [False], yet the topic stays in [additional_subscriptions] with the set
    holding just this agent (and in [subscriptions_to_class] when an expected
    class was given); a following call for the same topic by any registered
    agent returns [True] and reaches the broker no more. *)
Theorem subscription_failure_is_not_atomic aid topic qos cls rc w :
  aid ∈ agents w →
  od_mem topic (additional_subscriptions w) = false →
  rc ≠ MQTT_ERR_SUCCESS →
  let w' := exec (subscribe_for_agent aid topic qos cls rc) w in
  result (subscribe_for_agent aid topic qos cls rc) w = Ok (Return false)
  ∧ trace w' = trace w ++ [Subscribe topic qos]
  ∧ od_get topic (additional_subscriptions w') = Some {[aid]}
  ∧ (∀ c, cls = Some c → od_get topic (subscriptions_to_class w') = Some c)
  ∧ ∀ aid' qos' cls' rc',
      aid' ∈ agents w' →
      result (subscribe_for_agent aid' topic qos' cls' rc') w'
        = Ok (Return true)
      ∧ trace (exec (subscribe_for_agent aid' topic qos' cls' rc') w')
        = trace w'.
Proof.
  intros Hin Hm Hrc. unfold exec, result.
  rewrite subscribe_rejected by done. simpl.
  destruct (bind_class_fields topic cls w) as (Ha & Hs & _ & Ht & _).
  rewrite Hs, Ht. split_and!; try done.
  - rewrite od_get_set. by rewrite decide_True.
  - intros c ->. simpl. rewrite od_get_set. by rewrite decide_True.
  - intros aid' qos' cls' rc' Hin'.
    rewrite subscribe_present; simpl; rewrite ?Hs; try done.
    + split; [done|]. destruct cls'; simpl; by rewrite Ht.
    + apply od_mem_true. rewrite od_get_set, decide_True by done. by eexists.
Qed.

(** ** The inbox address as a subscription *)

Lemma own_topic_frame a w w' :
  inbox_topic w' = inbox_topic w →
  additional_subscriptions w' = additional_subscriptions w →
  own_topic_free a w → own_topic_free a w'.
Proof. unfold own_topic_free. by intros -> ->. Qed.

Lemma own_topic_trace a f w :
  own_topic_free a w → own_topic_free a (set_trace f w).
Proof. by apply own_topic_frame. Qed.

Lemma own_topic_quiet a w w' :
  quiet w w' → own_topic_free a w → own_topic_free a w'.
Proof. intros (_ & Hs & Ht & _). by apply own_topic_frame. Qed.

Lemma own_topic_deregister a aid :
  preserves (own_topic_free a) (deregister_agent aid).
Proof.
  intros w [Ht Hn]. unfold exec. rewrite deregister_agent_eq.
  split; [done|]. simpl. apply eq_None_not_Some. intros [S HS].
  apply od_get_elem, pops_elem, without_elem in HS as (S0 & HS & _).
  assert (a ∈ od_keys (additional_subscriptions w)) as Hk.
  { apply list_elem_of_fmap. by exists (a, S0). }
  apply od_get_keys in Hk. rewrite Hn in Hk. by destruct Hk.
Qed.

Lemma own_topic_shutdown a aid :
  preserves (own_topic_free a) (Agent_shutdown aid).
Proof.
  unfold Agent_shutdown, await_check_inbox_task, the_agent.
  preserves_go (own_topic_frame a) (own_topic_trace a).
  apply own_topic_deregister.
Qed.

Lemma own_topic_run_op a o w :
  subscribes_to a o = false →
  own_topic_free a w → own_topic_free a (run_op o w).
Proof.
  destruct o; cbn [run_op subscribes_to]; intros Ho.
  - case_bool_decide; [done|]. by apply own_topic_frame.
  - apply bool_decide_eq_false in Ho. intros [Ht Hn].
    unfold own_topic_free, exec.
    destruct (bind_class_fields topic expected_class w)
      as (_ & Hs & _ & _ & _ & Hi).
    destruct (decide (aid ∈ agents w)) as [Hin|Hin];
      [|by rewrite subscribe_unknown].
    destruct (od_mem topic (additional_subscriptions w)) eqn:Hm.
    + rewrite subscribe_present by done. simpl. rewrite Hs, Hi.
      split; [done|]. rewrite od_get_alter. by rewrite decide_False.
    + assert (od_get a (od_set topic {[aid]} (additional_subscriptions w))
              = None) as Hset.
      { rewrite od_get_set. by rewrite decide_False. }
      destruct (decide (rc = MQTT_ERR_SUCCESS)) as [->|Hrc].
      * rewrite subscribe_accepted by done. simpl. by rewrite Hs, Hi.
      * rewrite subscribe_rejected by done. simpl. by rewrite Hs, Hi.
  - apply own_topic_quiet, quiet_set_expected_class.
  - apply own_topic_quiet, quiet_send_message.
  - apply own_topic_deregister.
  - apply own_topic_quiet, quiet_on_sub.
  - apply own_topic_quiet, quiet_on_msg.
  - apply own_topic_quiet, quiet_run_callback.
  - apply own_topic_quiet, quiet_dispatch.
  - apply own_topic_quiet, quiet_check_inbox.
  - apply own_topic_shutdown.
  - apply own_topic_quiet, quiet_container_shutdown.
Qed.

(** C8, as the code has it.  The inbox address is no key of
    [additional_subscriptions] after any history in which [subscribe_for_agent]
    was never called with the inbox address itself as the topic; and whenever
    a registered agent does subscribe to the inbox address, the address
    becomes a key. *)
Theorem inbox_topic_is_no_subscription_unless_subscribed a :
  (∀ ops, Forall (λ o, subscribes_to a o = false) ops →
      let w := run ops (init (Some a)) in
      inbox_topic w = Some a
      ∧ od_mem a (additional_subscriptions w) = false)
  ∧ (∀ ops aid qos cls rc,
      let w := run ops (init (Some a)) in
      aid ∈ agents w →
      od_mem a (additional_subscriptions
                  (run_op (SubscribeForAgent aid a qos cls rc) w)) = true).
Proof.
  split.
  - intros ops Hops. simpl. rewrite od_mem_false.
    change (own_topic_free a (run ops (init (Some a)))).
    revert Hops. induction ops as [|o ops IH] using rev_ind;
      [intros _; by split|].
    intros [Hops Ho%Forall_inv]%Forall_app.
    rewrite run_snoc. apply own_topic_run_op; [done | by apply IH].
  - intros ops aid qos cls rc w Hin. simpl. unfold exec.
    destruct (bind_class_fields a cls w) as (_ & Hs & _).
    apply od_mem_true.
    destruct (od_mem a (additional_subscriptions w)) eqn:Hm.
    + rewrite subscribe_present by done. simpl. rewrite Hs, od_get_alter.
      rewrite decide_True by done. apply od_mem_true in Hm as [S ->].
      by eexists.
    + destruct (decide (rc = MQTT_ERR_SUCCESS)) as [->|Hrc].
      * rewrite subscribe_accepted by done. simpl.
        rewrite Hs, od_get_set, decide_True by done. by eexists.
      * rewrite subscribe_rejected by done. simpl.
        rewrite Hs, od_get_set, decide_True by done. by eexists.
Qed.

(** ** Reference counting of the broker subscriptions *)

Lemma quiet_drain w : quiet w (exec drain w).
Proof.
  unfold drain. apply quiet_bind; [done|]. intros q w'.
  apply quiet_for_each. intros _ w''. apply quiet_run_callback.
Qed.

Lemma subs_inv_subscribe_and_wait aid topic qos cls rc :
  preserves subs_inv (subscribe_and_wait aid topic qos cls rc).
Proof.
  unfold subscribe_and_wait.
  apply preserves_bind; [apply subs_inv_subscribe|]. intros [b|f].
  - apply preserves_ret.
  - intros w Hw. eapply subs_inv_quiet; [|exact Hw].
    apply quiet_bind; [apply quiet_on_sub|]. intros _ w1.
    apply quiet_bind; [apply quiet_drain|]. intros _ w2.
    apply quiet_bind; [done|]. intros fs w3. by repeat case_match.
Qed.

Lemma first_subscription aid topic qos cls rc w :
  aid ∈ agents w →
  od_mem topic (additional_subscriptions w) = false →
  let w' := exec (subscribe_and_wait aid topic qos cls rc) w in
  agents w' = agents w
  ∧ additional_subscriptions w'
    = od_set topic {[aid]} (additional_subscriptions w)
  ∧ subscribe_calls topic (trace w') = S (subscribe_calls topic (trace w))
  ∧ unsubscribe_calls topic (trace w') = unsubscribe_calls topic (trace w).
Proof.
  intros Hin Hm.
  destruct (bind_class_fields topic cls w) as (Ha & Hs & _ & Ht & _).
  assert (∀ w1,
    agents w1 = agents w →
    additional_subscriptions w1
      = od_set topic {[aid]} (additional_subscriptions w) →
    trace w1 = trace w ++ [Subscribe topic qos] →
    ∀ w2, quiet w1 w2 →
    agents w2 = agents w
    ∧ additional_subscriptions w2
      = od_set topic {[aid]} (additional_subscriptions w)
    ∧ subscribe_calls topic (trace w2) = S (subscribe_calls topic (trace w))
    ∧ unsubscribe_calls topic (trace w2) = unsubscribe_calls topic (trace w))
    as Hfinish.
  { intros w1 Ha1 Hs1 Ht1 w2 (Ha2 & Hs2 & _ & _ & Hc).
    destruct (Hc topic) as [Hc1 Hc2].
    rewrite Ha2, Hs2, Hc1, Hc2, Ht1.
    unfold subscribe_calls, unsubscribe_calls. rewrite !count_events_snoc.
    simpl. rewrite bool_decide_eq_true_2 by done. split_and!; try done; lia. }
  unfold subscribe_and_wait. cbv zeta. rewrite exec_bind.
  destruct (decide (rc = MQTT_ERR_SUCCESS)) as [->|Hrc].
  - rewrite subscribe_accepted by done.
    eapply Hfinish; [..|
      apply quiet_bind; [apply quiet_on_sub|]; intros _ w1;
      apply quiet_bind; [apply quiet_drain|]; intros _ w2;
      apply quiet_bind; [done|]; intros fs w3; by repeat case_match];
      simpl; rewrite ?Ha, ?Hs, ?Ht; done.
  - rewrite subscribe_rejected by done.
    eapply Hfinish; [..|reflexivity]; simpl; rewrite ?Ha, ?Hs, ?Ht; done.
Qed.

Lemma later_subscription aid topic qos cls rc S w :
  aid ∈ agents w →
  od_get topic (additional_subscriptions w) = Some S →
  subscribe_and_wait aid topic qos cls rc w
  = (Ok (Return true),
     set_additional_subscriptions (od_alter (λ s, s ∪ {[aid]}) topic)
       (bind_class topic cls w)).
Proof.
  intros Hin HS. unfold subscribe_and_wait, mbind, M_bind.
  rewrite subscribe_present; [done..|]. apply od_mem_true. by eexists.
Qed.

Lemma subscribe_all_later others topic qos cls rc S w :
  (∀ aid, aid ∈ others → aid ∈ agents w) →
  od_get topic (additional_subscriptions w) = Some S →
  (subscribe_all others topic qos cls rc w).1
    = (λ _, Ok (Return true)) <$> others
  ∧ let w' := (subscribe_all others topic qos cls rc w).2 in
    agents w' = agents w
    ∧ trace w' = trace w
    ∧ od_get topic (additional_subscriptions w')
      = Some (S ∪ list_to_set others)
    ∧ (subs_inv w → subs_inv w').
Proof.
  revert S w. induction others as [|aid others IH]; intros S w Hreg HS.
  - simpl. split_and!; try done. rewrite HS. f_equal. set_solver.
  - cbn [subscribe_all].
    pose proof (subs_inv_subscribe_and_wait aid topic qos cls rc w) as Hinv.
    unfold exec in Hinv.
    rewrite (later_subscription _ _ _ _ _ S) in * by (try apply Hreg; by try left).
    destruct (bind_class_fields topic cls w) as (Ha & Hs & _ & Ht & _).
    set (w1 := set_additional_subscriptions _ _) in *.
    destruct (IH (S ∪ {[aid]}) w1) as (Hrs & Hag & Htr & Hget & Hsi).
    { intros aid' Hin'. simpl. rewrite Ha. apply Hreg. by right. }
    { simpl. rewrite Hs, od_get_alter, decide_True by done. by rewrite HS. }
    destruct (subscribe_all others topic qos cls rc w1) as [rs w2].
    simpl in *. split_and!; try done.
    + by rewrite Hrs.
    + by rewrite Hag, Ha.
    + by rewrite Htr, Ht.
    + rewrite Hget. f_equal. set_solver.
    + intros Hw. by apply Hsi, Hinv.
Qed.

Lemma deregister_counts aid topic (X : gset string) w :
  subs_inv w →
  od_get topic (additional_subscriptions w) = Some X →
  let w' := exec (deregister_agent aid) w in
  if decide (X ∖ {[aid]} = ∅) then
    unsubscribe_calls topic (trace w') = S (unsubscribe_calls topic (trace w))
    ∧ od_get topic (additional_subscriptions w') = None
  else
    unsubscribe_calls topic (trace w') = unsubscribe_calls topic (trace w)
    ∧ od_get topic (additional_subscriptions w') = Some (X ∖ {[aid]}).
Proof.
  intros [Hnd _] HX. unfold exec. rewrite deregister_agent_eq. simpl.
  unfold unsubscribe_calls at 1 3. rewrite count_events_app.
  fold (unsubscribe_calls topic (trace w)).
  fold (unsubscribe_calls topic
          (Unsubscribe <$> emptied aid (additional_subscriptions w))).
  rewrite unsubscribe_calls_fmap by by apply emptied_nodup.
  rewrite pops_get by by rewrite without_keys.
  rewrite without_get, HX. simpl.
  destruct (decide (X ∖ {[aid]} = ∅)) as [He|He].
  - rewrite !decide_True; [split; [lia|done] | |];
      apply emptied_elem; eauto.
  - rewrite !decide_False; [split; [lia|done] | |];
      intros (X' & HX' & He')%emptied_elem; try done; congruence.
Qed.

Lemma deregister_all_counts leaving topic w :
  NoDup leaving → leaving ≠ [] →
  subs_inv w →
  od_get topic (additional_subscriptions w) = Some (list_to_set leaving) →
  (∀ k, (k < length leaving)%nat →
     unsubscribe_calls topic (trace (deregister_all (take k leaving) w))
     = unsubscribe_calls topic (trace w))
  ∧ unsubscribe_calls topic (trace (deregister_all leaving w))
    = S (unsubscribe_calls topic (trace w)).
Proof.
  revert w. induction leaving as [|aid leaving IH]; [done|].
  intros w [Hnotin Hnd]%NoDup_cons _ Hinv HS.
  pose proof (deregister_counts aid topic _ w Hinv HS) as Hstep.
  pose proof (subs_inv_deregister aid w Hinv) as Hinv'.
  cbv zeta in Hstep.
  assert ((list_to_set (aid :: leaving) : gset string) ∖ {[aid]}
          = list_to_set leaving) as Hset.
  { rewrite list_to_set_cons. apply set_eq. intros x.
    rewrite elem_of_difference, elem_of_union, elem_of_singleton,
      elem_of_list_to_set. split; [tauto|]. intros Hx. split; [by right|].
    by intros ->. }
  rewrite Hset in Hstep. destruct leaving as [|aid' leaving].
  - rewrite decide_True in Hstep by done. destruct Hstep as [Hc _].
    split; [|done]. intros k Hk. simpl in Hk.
    by replace k with 0%nat by lia.
  - rewrite decide_False in Hstep by set_solver. destruct Hstep as [Hc Hget].
    destruct (IH (exec (deregister_agent aid) w)) as [IH1 IH2]; try done.
    split.
    + intros [|k] Hk; [done|]. cbn [take deregister_all foldl].
      rewrite <- Hc. apply IH1. simpl in *. lia.
    + cbn [deregister_all foldl]. by rewrite <- Hc.
Qed.

(** C2. Broker subscriptions are reference-counted per topic pattern.  After
    any history, let the agents [first :: others], registered and pairwise
    distinct, subscribe one after the other to a pattern [P] that has no
    entry yet: the broker gets exactly one subscribe call for [P], issued by
    the first subscription; every later subscription returns [True] without
    a call to the broker and the set of [P] holds exactly these agents.  When
    the same agents then deregister, in any order, no unsubscribe call for
    [P] is issued as long as one of them is left, and exactly one once the
    last has left. *)
Theorem subscriptions_are_reference_counted
    ops a P qos cls rc first others leaving :
  let w0 := run ops (init a) in
  let subscribed := subscribe_all (first :: others) P qos cls rc w0 in
  let w1 := subscribed.2 in
  NoDup (first :: others) →
  (∀ aid, aid ∈ first :: others → aid ∈ agents w0) →
  od_mem P (additional_subscriptions w0) = false →
  leaving ≡ₚ first :: others →
  subscribe_calls P (trace (exec (subscribe_and_wait first P qos cls rc) w0))
    = S (subscribe_calls P (trace w0))
  ∧ subscribe_calls P (trace w1) = S (subscribe_calls P (trace w0))
  ∧ tail subscribed.1 = (λ _, Ok (Return true)) <$> others
  ∧ od_get P (additional_subscriptions w1)
    = Some (list_to_set (first :: others))
  ∧ (∀ k, (k < length leaving)%nat →
       unsubscribe_calls P (trace (deregister_all (take k leaving) w1))
       = unsubscribe_calls P (trace w1))
  ∧ unsubscribe_calls P (trace (deregister_all leaving w1))
    = S (unsubscribe_calls P (trace w1)).
Proof.
  intros w0 subscribed w1 Hnd Hreg Hm Hperm.
  pose proof (subs_inv_run ops a) as Hinv0. fold w0 in Hinv0.
  pose proof (first_subscription first P qos cls rc w0) as Hfirst.
  pose proof (subs_inv_subscribe_and_wait first P qos cls rc w0 Hinv0) as Hinv.
  cbv zeta in Hfirst. destruct Hfirst as (Ha & Hs & Hc & Hu); [|done|].
  { apply Hreg. by left. }
  subst subscribed w1. cbn [subscribe_all]. unfold exec in *.
  destruct (subscribe_and_wait first P qos cls rc w0) as [r wf].
  simpl in Ha, Hs, Hc, Hu, Hinv.
  destruct (subscribe_all_later others P qos cls rc {[first]} wf)
    as (Hrs & Hag & Htr & Hget & Hsi).
  { intros aid Hin. rewrite Ha. apply Hreg. by right. }
  { rewrite Hs, od_get_set. by rewrite decide_True. }
  destruct (subscribe_all others P qos cls rc wf) as [rs w1].
  simpl in *. rewrite Htr.
  assert (od_get P (additional_subscriptions w1)
          = Some (list_to_set leaving)) as Hget'.
  { rewrite Hget. f_equal. rewrite (list_to_set_perm_L _ _ Hperm).
    by rewrite list_to_set_cons. }
  assert (NoDup leaving ∧ leaving ≠ []) as [Hndl Hne].
  { split; [by rewrite Hperm|]. intros ->. by apply Permutation_nil_l in Hperm. }
  destruct (deregister_all_counts leaving P w1) as [Hbefore Hlast];
    [done | done | by apply Hsi | done |].
  rewrite Htr in Hbefore, Hlast. split_and!; done.
Qed.

(** ** Dispatch of a message that is not for the inbox address *)

Lemma collect_receivers_eq items topic receivers w :
  collect_receivers items (VStr topic) receivers w
  = (Ok (receivers ∪ recipients topic items), w).
Proof.
  unfold recipients.
  revert receivers. induction items as [|[sub X] items IH]; intros receivers.
  - simpl. unfold mret, M_ret. do 2 f_equal. set_solver.
  - cbn [collect_receivers matches]. unfold mbind, M_bind, mret, M_ret.
    rewrite IH. rewrite filter_cons. cbn [fst snd].
    destruct (topic_matches_sub sub topic).
    + rewrite decide_True by done. rewrite fmap_cons. cbn [union_list snd].
      do 2 f_equal. set_solver.
    + rewrite decide_False by done. done.
Qed.

Lemma elem_of_recipients aid topic items :
  aid ∈ recipients topic items
  ↔ ∃ sub X, (sub, X) ∈ items ∧ topic_matches_sub sub topic = true ∧ aid ∈ X.
Proof.
  unfold recipients. rewrite elem_of_union_list. split.
  - intros (X & HX & Hin).
    apply list_elem_of_fmap in HX as ([sub X'] & -> & [Hm Hi]%list_elem_of_filter).
    by exists sub, X'.
  - intros (sub & X & Hi & Hm & Hin). exists X. split; [|done].
    apply list_elem_of_fmap. exists (sub, X). split; [done|].
    by apply list_elem_of_filter.
Qed.

Lemma inbox_put_eq (r : string) (m : msg) (w : World) :
  r ∈ agents w →
  inbox_put r m w = (Ok (), set_objects (alter (deliver m) r) w).
Proof.
  intros Hin. unfold inbox_put. unfold_M. cbv beta.
  by rewrite bool_decide_eq_true_2.
Qed.

Lemma for_each_inbox_put (l : list string) (m : msg) (w : World) :
  (∀ aid, aid ∈ l → aid ∈ agents w) →
  for_each l (λ receiver_id, inbox_put receiver_id m) w
  = (Ok (),
     set_objects (λ objs, foldl (λ o r, alter (deliver m) r o) objs l) w).
Proof.
  revert w. induction l as [|r l IH]; intros w Hreg.
  - simpl. unfold mret, M_ret, set_objects. by rewrite world_eta.
  - cbn [for_each]. unfold mbind, M_bind.
    rewrite inbox_put_eq by (apply Hreg; by left).
    rewrite IH; [done|]. intros aid Hin. apply Hreg. by right.
Qed.

Lemma lookup_foldl_alter {A} (f : A → A) (l : list string) (m : gmap string A)
    (k : string) :
  NoDup l →
  foldl (λ o r, alter f r o) m l !! k
  = if decide (k ∈ l) then f <$> m !! k else m !! k.
Proof.
  revert m. induction l as [|r l IH]; intros m Hnd; cbn [foldl].
  - by rewrite decide_False by by intros ?%elem_of_nil.
  - apply NoDup_cons in Hnd as [Hr Hnd]. rewrite IH by done.
    rewrite lookup_alter.
    destruct (decide (k ∈ l)) as [Hk|Hk];
      destruct (decide (r = k)) as [Hrk|Hrk];
      destruct (decide (k ∈ r :: l)) as [Hkl|Hkl]; subst; try done.
    + exfalso. apply Hkl. by right.
    + exfalso. apply Hkl. by left.
    + apply elem_of_cons in Hkl as [->|?]; done.
Qed.

Lemma handle_msg_subscribed priority msg_content meta topic w :
  meta !! "topic" = Some (VStr topic) →
  topic_is (VStr topic) (inbox_topic w) = false →
  _handle_msg priority msg_content meta w
  = if bool_decide (recipients topic (additional_subscriptions w) = ∅) then
      (Ok (), set_trace (λ t, t ++ [WarnNoSubscriber (VStr topic)]) w)
    else
      for_each (elements (recipients topic (additional_subscriptions w)))
        (λ receiver_id,
           inbox_put receiver_id
             (priority, (split_into msg_content meta).1,
              (split_into msg_content meta).2)) w.
Proof.
  intros Htopic Hti. unfold _handle_msg.
  unfold mbind, M_bind, get, mret, M_ret. rewrite Htopic.
  destruct (split_into msg_content meta) as [content meta'].
  rewrite Hti, collect_receivers_eq, union_empty_l_L. cbn [fst snd].
  by case_bool_decide.
Qed.

(** C3. A message whose topic is not the container's inbox address goes to
    the subscribers: after any history, [_handle_msg] takes as recipients the
    agents of every subscription whose pattern matches the topic.  When there
    is none, the message is dropped with a warning and no agent object
    changes; otherwise the one tuple [(priority, content, meta)], content and
    metadata being those left by the envelope split, is appended to the inbox
    of every recipient, and to no other. *)
Theorem dispatch_fans_out_to_subscribers ops a priority msg_content meta topic :
  let w := run ops (init a) in
  let w' := exec (_handle_msg priority msg_content meta) w in
  let receivers := recipients topic (additional_subscriptions w) in
  let delivered :=
    (priority, (split_into msg_content meta).1, (split_into msg_content meta).2)
  in
  meta !! "topic" = Some (VStr topic) →
  inbox_topic w ≠ Some topic →
  result (_handle_msg priority msg_content meta) w = Ok ()
  ∧ (∀ aid, aid ∈ receivers
       ↔ ∃ sub X, (sub, X) ∈ additional_subscriptions w
                  ∧ topic_matches_sub sub topic = true ∧ aid ∈ X)
  ∧ (receivers = ∅ →
       trace w' = trace w ++ [WarnNoSubscriber (VStr topic)]
       ∧ objects w' = objects w)
  ∧ (receivers ≠ ∅ →
       trace w' = trace w
       ∧ ∀ aid,
           if decide (aid ∈ receivers) then
             ∃ agent, objects w !! aid = Some agent
                      ∧ objects w' !! aid = Some (deliver delivered agent)
           else objects w' !! aid = objects w !! aid).
Proof.
  intros w w' receivers delivered Htopic Hnot.
  pose proof (subs_inv_run ops a) as [_ Hsubs].
  pose proof (objs_inv_run ops a) as [Hobjs _].
  fold w in Hsubs, Hobjs.
  assert (∀ aid, aid ∈ receivers → aid ∈ agents w) as Hreg.
  { intros aid (sub & X & Hin & _ & HX)%elem_of_recipients.
    by apply (Hsubs sub X). }
  assert (topic_is (VStr topic) (inbox_topic w) = false) as Hti.
  { destruct (inbox_topic w) as [t|]; simpl; [|done].
    apply bool_decide_eq_false. congruence. }
  split_and!; [| intros aid; apply elem_of_recipients | |].
  all: subst w'; unfold exec, result.
  all: rewrite (handle_msg_subscribed _ _ _ topic) by done; fold receivers.
  - case_bool_decide; [done|].
    rewrite for_each_inbox_put; [done|].
    intros aid Hin%elem_of_elements. by apply Hreg.
  - intros He. by rewrite bool_decide_eq_true_2.
  - intros Hne. rewrite bool_decide_eq_false_2 by done.
    rewrite for_each_inbox_put
      by (intros aid Hin%elem_of_elements; by apply Hreg).
    split; [done|]. intros aid. cbn [snd set_objects objects].
    rewrite lookup_foldl_alter by apply NoDup_elements.
    destruct (decide (aid ∈ receivers)) as [Hin|Hin].
    + rewrite decide_True by by apply elem_of_elements.
      destruct (Hobjs aid (Hreg aid Hin)) as [agent Hag].
      exists agent. by rewrite Hag.
    + rewrite decide_False; [done|]. by rewrite elem_of_elements.
Qed.

(** ** [send_message] *)

Lemma send_message_local content receiver_addr rid ca am mk kwargs w :
  truthy_addr (addr w) = true →
  addr w = Some receiver_addr →
  retain_requested kwargs = false →
  send_message content receiver_addr rid ca am mk kwargs w
  = (Ok true,
     set_inbox
       (λ q, q ++ [local_entry (outgoing w content receiver_addr rid ca am)
                     receiver_addr kwargs])
       (set_trace (λ t, t ++ deprecations ca am mk) w)).
Proof.
  intros Ht Ha Hr. unfold send_message, local_entry, outgoing, deprecations.
  unfold retain_requested in Hr.
  destruct (bool_decide (is_Some ca ∨ is_Some am)), (bool_decide (is_Some mk)).
  all: unfold_M; cbn [default from_option addr set_trace fst snd]; unfold id.
  all: rewrite Ht, Hr, bool_decide_eq_true_2 by done; cbn [andb negb].
  all: rewrite Ha; cbn [value_of_addr].
  all: destruct (split_into _ _) as [c m]; cbn [fst snd].
  all: unfold set_inbox, set_trace; simpl.
  all: rewrite ?app_nil_r, <- ?app_assoc; done.
Qed.

Lemma send_message_external content receiver_addr rid ca am mk kwargs w :
  truthy_addr (addr w) = false ∨ addr w ≠ Some receiver_addr
    ∨ retain_requested kwargs = true →
  send_message content receiver_addr rid ca am mk kwargs w
  = (Ok true,
     set_trace
       (λ t, t ++ deprecations ca am mk
               ++ [Publish receiver_addr
                     (codec_encode
                        (outgoing w content receiver_addr rid ca am))])
       w).
Proof.
  intros Hcase.
  unfold send_message, _send_external_message, outgoing, deprecations.
  unfold retain_requested in Hcase.
  assert (truthy_addr (addr w)
          && bool_decide (Some receiver_addr = addr w)
          && negb (truthy (dict_get_default kwargs "retain" (VBool false)))
          = false) as Hcond.
  { destruct Hcase as [->|[Hne| ->]]; [done| |].
    - rewrite bool_decide_eq_false_2 by congruence. by rewrite andb_false_r.
    - by rewrite andb_false_r. }
  destruct (bool_decide (is_Some ca ∨ is_Some am)), (bool_decide (is_Some mk)).
  all: unfold_M; cbn [default from_option addr set_trace fst snd]; unfold id.
  all: rewrite Hcond; unfold set_trace; simpl.
  all: rewrite ?app_nil_r, <- ?app_assoc; done.
Qed.

Lemma publishes_app t1 t2 : publishes (t1 ++ t2) = publishes t1 ++ publishes t2.
Proof. apply filter_app. Qed.

Lemma publishes_deprecations ca am mk : publishes (deprecations ca am mk) = [].
Proof. unfold deprecations. by repeat case_bool_decide. Qed.

(** C4, as the code has it.  When the container has a non-empty inbox
    address, the destination equals it and the options do not ask for the
    retain flag, [send_message] puts the message, split into content and
    metadata if it is an envelope, into the container's own inbox with
    priority 0 and calls [publish] not at all; when the options ask for the
    retain flag or the destination is another address, the inbox stays as it
    is and the encoded message is published to the destination. *)
Theorem send_message_short_circuits_own_address
    content receiver_addr rid ca am mk kwargs w :
  let message := outgoing w content receiver_addr rid ca am in
  let w' := exec (send_message content receiver_addr rid ca am mk kwargs) w in
  (truthy_addr (addr w) = true →
   addr w = Some receiver_addr →
   retain_requested kwargs = false →
   inbox w' = inbox w ++ [local_entry message receiver_addr kwargs]
   ∧ (local_entry message receiver_addr kwargs).1.1 = 0
   ∧ publishes (trace w') = publishes (trace w))
  ∧ (retain_requested kwargs = true ∨ addr w ≠ Some receiver_addr →
     inbox w' = inbox w
     ∧ publishes (trace w')
       = publishes (trace w) ++ [Publish receiver_addr (codec_encode message)]).
Proof.
  intros message w'. subst message w'. unfold exec. split.
  - intros Ht Ha Hr. rewrite send_message_local by done. simpl.
    rewrite publishes_app, publishes_deprecations, app_nil_r. done.
  - intros Hcase. rewrite send_message_external by tauto. simpl.
    rewrite !publishes_app, publishes_deprecations. done.
Qed.

(** C10, as the code has it.  [mqtt_kwargs] never takes part in the routing
    of [send_message]: whatever is passed for it, the result, the container's
    inbox and the calls of [publish] are those of the call without it.  In
    particular, when the container has a non-empty inbox address, the
    destination equals it, [mqtt_kwargs] is [{"retain": True}] and [kwargs]
    has no ["retain"] key, the message is put into the container's inbox and
    not published. *)
Theorem mqtt_kwargs_is_ignored content receiver_addr rid ca am mk kwargs w :
  let with_mk := send_message content receiver_addr rid ca am mk kwargs in
  let without := send_message content receiver_addr rid ca am None kwargs in
  (result with_mk w = result without w
   ∧ inbox (exec with_mk w) = inbox (exec without w)
   ∧ publishes (trace (exec with_mk w)) = publishes (trace (exec without w)))
  ∧ (truthy_addr (addr w) = true →
     addr w = Some receiver_addr →
     mk = Some {[ "retain" := VBool true ]} →
     kwargs !! "retain" = None →
     inbox (exec with_mk w)
       = inbox w ++ [local_entry (outgoing w content receiver_addr rid ca am)
                       receiver_addr kwargs]
     ∧ publishes (trace (exec with_mk w)) = publishes (trace w)).
Proof.
  intros with_mk without. subst with_mk without. unfold exec, result. split.
  - destruct (truthy_addr (addr w)) eqn:Ht;
      [destruct (decide (addr w = Some receiver_addr)) as [Ha|Ha];
       [destruct (retain_requested kwargs) eqn:Hr|]|].
    2: { rewrite !send_message_local by done. simpl.
         by rewrite !publishes_app, !publishes_deprecations. }
    all: rewrite !send_message_external by tauto; simpl.
    all: by rewrite !publishes_app, !publishes_deprecations.
  - intros Ht Ha -> Hk.
    rewrite send_message_local; try done.
    + simpl. by rewrite publishes_app, publishes_deprecations, app_nil_r.
    + unfold retain_requested, dict_get_default. by rewrite Hk.
Qed.

(** ** Two subscriptions in flight *)

Lemma orphaned_future_stays_pending w :
  futures w = [FPending; FResult (VInt 0)] →
  pending_sub_request w = Some 1%nat →
  ready w = [] →
  awaiting w = [0%nat] →
  let w' := run [OnSubscribe; RunCallback] w in
  futures w' = [FPending; FResult (VInt 0)]
  ∧ pending_sub_request w' = Some 1%nat
  ∧ ready w' = []
  ∧ awaiting w' = [0%nat]
  ∧ trace w' = trace w ++ [LoopException InvalidStateError].
Proof.
  intros Hf Hp Hr Ha. simpl. unfold on_sub, run_callback, future_set_result.
  unfold_M. simpl. rewrite Hp. simpl. rewrite Hr. simpl. rewrite Hf. simpl.
  by rewrite Hf, Hp, Ha.
Qed.

(** C1, on the code.  Let an agent subscribe to a new topic and, while this
    call awaits its acknowledgement, to a second new topic, the broker
    accepting both calls.  Then two unresolved futures exist and both are
    awaited, while [pending_sub_request] holds the second only.  The first
    acknowledgement resolves the second future; the second acknowledgement
    raises [InvalidStateError] in the loop; and whatever number of
    acknowledgements arrives, the first future stays unresolved and its
    caller suspended. *)
Theorem concurrent_subscriptions_orphan_a_future a qos n :
  let w := two_concurrent_subscriptions a qos in
  futures w = [FPending; FPending]
  ∧ awaiting w = [0%nat; 1%nat]
  ∧ pending_sub_request w = Some 1%nat
  ∧ futures (run (acknowledgements 1) w) = [FPending; FResult (VInt 0)]
  ∧ trace (run (acknowledgements 2) w)
    = trace w ++ [LoopException InvalidStateError]
  ∧ futures (run (acknowledgements (S n)) w) !! 0%nat = Some FPending
  ∧ awaiting (run (acknowledgements (S n)) w) = [0%nat].
Proof.
  intros w. split_and!; try reflexivity.
  all: assert (futures (run (acknowledgements (S n)) w)
               = [FPending; FResult (VInt 0)]
    ∧ pending_sub_request (run (acknowledgements (S n)) w) = Some 1%nat
    ∧ ready (run (acknowledgements (S n)) w) = []
    ∧ awaiting (run (acknowledgements (S n)) w) = [0%nat])
    as (Hf & Hp & Hr & Ha).
  1, 3: induction n as [|n (Hf & Hp & Hr & Ha)]; [by split_and!|];
    change (acknowledgements (S (S n)))
      with (acknowledgements (S n) ++ [OnSubscribe; RunCallback]);
    unfold run in *; rewrite foldl_app;
    by destruct (orphaned_future_stays_pending _ Hf Hp Hr Ha)
      as (? & ? & ? & ? & _).
  - by rewrite Hf.
  - done.
Qed.

(** ** Incoming messages *)

Lemma decode_mqtt_msg_bound topic payload content fields w :
  codec_decode payload = Ok (OACL content fields) →
  class_for topic (subscriptions_to_class w) = Some ACLMessage →
  decode_mqtt_msg topic payload w = (Ok (OACL content fields, fields), w).
Proof.
  intros Hd Hc. unfold decode_mqtt_msg. unfold_M. simpl.
  by rewrite Hd, Hc.
Qed.

Lemma decode_mqtt_msg_unbound topic payload decoded w :
  codec_decode payload = Ok decoded →
  class_for topic (subscriptions_to_class w) ≠ Some ACLMessage →
  decode_mqtt_msg topic payload w = (Ok (decoded, ∅), w).
Proof.
  intros Hd Hc. unfold decode_mqtt_msg. unfold_M. simpl.
  by rewrite Hd, bool_decide_eq_false_2.
Qed.

(** C7, on the code.  For a payload that the codec decodes to an
    [ACLMessage] with content [content] and envelope fields [fields]:
    when the first class binding that matches the topic is [ACLMessage],
    [on_msg] merges [fields] into the metadata but posts the decoded message
    itself, not [content], for the container's inbox; when no binding
    matches the topic, it posts the decoded message with the four transport
    entries alone, no envelope field merged. *)
Theorem on_msg_posts_the_decoded_message
    topic payload qos retain content fields w :
  codec_decode payload = Ok (OACL content fields) →
  (class_for topic (subscriptions_to_class w) = Some ACLMessage →
   exec (in_thread (on_msg topic payload qos retain)) w
   = set_ready
       (λ q, q ++ [PutNowait (0, OACL content fields,
                     dict_update (transport_meta topic qos retain) fields)])
       w)
  ∧ (class_for topic (subscriptions_to_class w) = None →
     exec (in_thread (on_msg topic payload qos retain)) w
     = set_ready
         (λ q, q ++ [PutNowait (0, OACL content fields,
                       transport_meta topic qos retain)])
         w).
Proof.
  intros Hd. split; intros Hc; unfold exec, in_thread, on_msg.
  - unfold mbind, M_bind. rewrite (decode_mqtt_msg_bound _ _ content fields)
      by done. done.
  - unfold mbind, M_bind. rewrite (decode_mqtt_msg_unbound _ _ _ _ Hd)
      by by rewrite Hc.
    unfold transport_meta, dict_update. simpl. by rewrite (left_id_L ∅ (∪)).
Qed.

(** ** [Scheduler.stop] *)

Lemma no_stop_frame w w' : trace w' = trace w → no_stop w → no_stop w'.
Proof. unfold no_stop. by intros ->. Qed.

Lemma no_stop_emit ev :
  is_scheduler_stop ev = false → preserves no_stop (emit ev).
Proof.
  intros Hev w Hw. unfold no_stop, exec, emit, modify in *. simpl.
  apply Forall_app. split; [done|]. by apply Forall_singleton.
Qed.

Lemma no_stop_in_loop (m : M unit) :
  preserves no_stop m → preserves no_stop (in_loop m).
Proof.
  intros Hm w Hw. specialize (Hm w Hw). unfold exec, in_loop in *.
  destruct (m w) as [[[]|e|] w']; simpl in *; try done.
  apply Forall_app. split; [done|]. by apply Forall_singleton.
Qed.

Lemma no_stop_in_thread (m : M unit) :
  preserves no_stop m → preserves no_stop (in_thread m).
Proof.
  intros Hm w Hw. specialize (Hm w Hw). unfold exec, in_thread in *.
  destruct (m w) as [[[]|e|] w']; simpl in *; try done.
  apply Forall_app. split; [done|]. by apply Forall_singleton.
Qed.

Ltac no_stop_go :=
  preserves_with no_stop_frame
    ltac:(first [ apply no_stop_emit; reflexivity
                | apply no_stop_in_loop
                | apply no_stop_in_thread ]).

Lemma no_stop_deregister aid : preserves no_stop (deregister_agent aid).
Proof.
  intros w Hw. unfold exec. rewrite deregister_agent_eq. unfold no_stop.
  simpl. apply Forall_app. split; [done|].
  apply Forall_forall. by intros ev (k & -> & _)%list_elem_of_fmap.
Qed.

Lemma no_stop_collect items topic receivers :
  preserves no_stop (collect_receivers items topic receivers).
Proof. intros w Hw. unfold exec. by rewrite collect_receivers_world. Qed.

Lemma no_stop_handle_msg priority msg_content meta :
  preserves no_stop (_handle_msg priority msg_content meta).
Proof.
  unfold _handle_msg, inbox_put. no_stop_go. apply no_stop_collect.
Qed.

(** The body of the [try] of [Agent.shutdown] never gets past the [await]:
    the consumer task has not finished, so awaiting it raises. *)
Lemma no_stop_shutdown aid w :
  objs_inv w → no_stop w → no_stop (exec (Agent_shutdown aid) w).
Proof.
  intros Hobjs Hstop.
  cut (objs_inv (exec (Agent_shutdown aid) w)
       ∧ no_stop (exec (Agent_shutdown aid) w)); [tauto|].
  revert w Hobjs Hstop.
  cut (preserves (λ w, objs_inv w ∧ no_stop w) (Agent_shutdown aid)).
  { intros H w ? ?. by apply H. }
  assert (∀ A (m : M A), preserves objs_inv m → preserves no_stop m →
            preserves (λ w, objs_inv w ∧ no_stop w) m) as Hboth.
  { intros A m H1 H2 w [? ?]. split; [by apply H1 | by apply H2]. }
  unfold Agent_shutdown.
  apply preserves_bind.
  { apply Hboth; unfold the_agent;
      [preserves_go objs_inv_frame objs_inv_trace | no_stop_go]. }
  intros self. apply preserves_bind.
  { apply Hboth; [|no_stop_go].
    preserves_go objs_inv_frame objs_inv_trace.
    apply preserves_modify. intros w Hw. apply objs_inv_alter; [|done].
    by intros ag [? ?]. }
  intros _. apply preserves_bind; [apply preserves_gets|]. intros is_running.
  apply preserves_bind.
  { apply Hboth.
    - preserves_go objs_inv_frame objs_inv_trace. apply objs_inv_deregister.
    - no_stop_go. apply no_stop_deregister. }
  intros _. apply preserves_try_finally;
    [|apply Hboth; [apply (preserves_emit _ objs_inv_trace) | no_stop_go]].
  apply preserves_try_except; [|apply preserves_ret].
  intros w [Hw Hstop].
  assert (objs_inv (set_objects (alter (λ a, set_check_inbox_task
              (task_cancel (check_inbox_task (set_done_callback false a)))
              (set_done_callback false a)) aid) w)) as Hw'.
  { apply objs_inv_alter; [apply agent_ok_cancel | done]. }
  destruct Hw as [_ Hok].
  unfold await_check_inbox_task, the_agent, no_stop in *. unfold_M. simpl.
  rewrite alter_alter_eq, lookup_alter, decide_True by done.
  destruct (objects w !! aid) as [self'|] eqn:Hself; simpl.
  - destruct (Hok _ _ Hself) as [Hfin _].
    destruct (check_inbox_task self') eqn:Htask; simpl; try done.
    all: split;
      [ eapply objs_inv_frame; [..|exact Hw']; simpl; try reflexivity;
        by rewrite alter_alter_eq
      | rewrite !Forall_app, !Forall_singleton; by split_and! ].
  - split;
      [ eapply objs_inv_frame; [..|exact Hw']; simpl; try reflexivity;
        by rewrite alter_alter_eq
      | rewrite !Forall_app, !Forall_singleton; by split_and! ].
Qed.

Lemma no_stop_run_op o w : objs_inv w → no_stop w → no_stop (run_op o w).
Proof.
  intros Hobjs. destruct o; cbn [run_op];
    try (clear Hobjs;
         lazymatch goal with
         | |- no_stop _ → no_stop (exec (Agent_shutdown _) _) => fail
         | |- no_stop ?w → no_stop (exec ?m ?w) =>
             revert w; change (preserves no_stop m)
         end).
  - case_bool_decide; [done|]. by apply no_stop_frame.
  - unfold subscribe_for_agent, new_future, future_set_result,
      await_then_return. no_stop_go.
  - unfold set_expected_class. no_stop_go.
  - unfold send_message, _send_external_message. no_stop_go.
  - apply no_stop_deregister.
  - unfold on_sub, call_soon_threadsafe. no_stop_go.
  - unfold on_msg, decode_mqtt_msg, extract_meta, get_content,
      call_soon_threadsafe. no_stop_go.
  - unfold run_callback, future_set_result. no_stop_go.
  - unfold dispatch. no_stop_go. apply no_stop_handle_msg.
  - unfold _check_inbox, run_done_callbacks, raise_exceptions, the_agent.
    no_stop_go.
  - by apply no_stop_shutdown.
  - unfold MQTTContainer_shutdown, Container_shutdown. no_stop_go.
Qed.

(** C5, on the code.  After any history of a container and its agents,
    [Scheduler.stop()] has not been called for any agent, however often
    [Agent.shutdown] ran: awaiting the cancelled consumer task raises
    [CancelledError] inside the [try] block, which skips the call. *)
Theorem shutdown_never_stops_the_scheduler ops a aid :
  SchedulerStop aid ∉ trace (run ops (init a))
  ∧ SchedulerStop aid ∉ trace (exec (Agent_shutdown aid) (run ops (init a))).
Proof.
  assert (∀ ops, no_stop (run ops (init a))) as Hrun.
  { clear ops. intros ops.
    induction ops as [|o ops IH] using rev_ind.
    - unfold no_stop. simpl. by apply Forall_singleton.
    - rewrite run_snoc. apply no_stop_run_op; [apply objs_inv_run | done]. }
  assert (∀ w, no_stop w → SchedulerStop aid ∉ trace w) as Hnot.
  { intros w Hw Hin. unfold no_stop in Hw. rewrite Forall_forall in Hw.
    by specialize (Hw _ Hin). }
  split; apply Hnot; [done|].
  pose proof (Hrun (ops ++ [ShutdownAgent aid])) as Hlast.
  by rewrite run_snoc in Hlast.
Qed.

(** ** The consumer loop *)




(** ** Further properties of the routing table *)

(** Every agent in the set of a subscription is registered and its object
    exists, after any history. *)
Theorem subscribers_stay_registered ops a sub X aid :
  let w := run ops (init a) in
  (sub, X) ∈ additional_subscriptions w →
  aid ∈ X →
  aid ∈ agents w ∧ is_Some (objects w !! aid).
Proof.
  intros w Hin Haid.
  pose proof (subs_inv_run ops a) as [_ Hsubs].
  pose proof (objs_inv_run ops a) as [Hobjs _].
  fold w in Hsubs, Hobjs.
  assert (aid ∈ agents w) as Hreg by by apply (Hsubs sub X).
  split; [done | by apply Hobjs].
Qed.

(** A message on the container's inbox address goes to the agent named by
    ["receiver_id"] in the metadata left by the envelope split, when that is
    a non-empty string and a registered agent; otherwise it is dropped with a
    warning.  The subscriptions play no part. *)
Theorem dispatch_to_inbox_address priority msg_content meta topic w :
  let w' := exec (_handle_msg priority msg_content meta) w in
  let delivered :=
    (priority, (split_into msg_content meta).1, (split_into msg_content meta).2)
  in
  let receiver_id := (split_into msg_content meta).2 !! "receiver_id" in
  meta !! "topic" = Some (VStr topic) →
  inbox_topic w = Some topic →
  (∀ r, receiver_id = Some (VStr r) → r ≠ "" → r ∈ agents w →
     result (_handle_msg priority msg_content meta) w = Ok ()
     ∧ objects w' = alter (deliver delivered) r (objects w)
     ∧ trace w' = trace w)
  ∧ ((∀ r, receiver_id = Some (VStr r) → r = "" ∨ r ∉ agents w) →
     objects w' = objects w
     ∧ trace w' = trace w ++ [WarnUnknownReceiver receiver_id]).
Proof.
  intros w' delivered receiver_id Htopic Hinbox.
  subst w' delivered receiver_id. unfold exec, result, _handle_msg.
  unfold mbind, M_bind, get, mret, M_ret. rewrite Htopic.
  destruct (split_into msg_content meta) as [content meta']. cbn [fst snd].
  rewrite Hinbox. cbn [topic_is]. rewrite bool_decide_eq_true_2 by done.
  split.
  - intros r -> Hne Hreg. cbn [truthy].
    rewrite (bool_decide_eq_false_2 _ Hne), (bool_decide_eq_true_2 _ Hreg).
    cbn [negb andb]. by rewrite inbox_put_eq.
  - intros Hnone. destruct (meta' !! "receiver_id") as [[| | |r]|] eqn:Hr;
      try done.
    destruct (Hnone r eq_refl) as [->|Hnot]; [done|]. cbn [truthy].
    rewrite (bool_decide_eq_false_2 _ Hnot). by rewrite andb_false_r.
Qed.


(** ** [Agent.shutdown], step by step *)

(** Reduces the projections of a world built with the setters. *)
Ltac fields :=
  cbn [fst snd addr running agents inbox inbox_topic additional_subscriptions
       subscriptions_to_class pending_sub_request futures ready awaiting
       objects trace set_running set_agents set_inbox
       set_additional_subscriptions set_subscriptions_to_class
       set_pending_sub_request set_futures set_ready set_awaiting set_objects
       set_trace].

Lemma deregister_agent_exec aid w :
  deregister_agent aid w = (Ok (), exec (deregister_agent aid) w).
Proof. unfold exec. by rewrite deregister_agent_eq. Qed.

Lemma deregister_agent_objects aid w :
  objects (exec (deregister_agent aid) w) = objects w.
Proof. unfold exec. by rewrite deregister_agent_eq. Qed.

Lemma shutdown_prefix_objects aid self w :
  objects w !! aid = Some self →
  objects (shutdown_prefix aid self w) !! aid = Some (set_stopped true self).
Proof.
  intros Hself. unfold shutdown_prefix.
  assert (set_stopped true self = self ∨ stopped self = false) as Hst.
  { destruct self as [q t c []]; [by left | by right]. }
  destruct (stopped self) eqn:Hs, (running w);
    rewrite ?deregister_agent_objects; simpl;
    rewrite ?lookup_alter, ?decide_True, ?Hself by done; try done.
  all: destruct Hst as [->|?]; [done | congruence].
Qed.

Lemma Agent_shutdown_eq aid self w :
  objects w !! aid = Some self →
  Agent_shutdown aid w
  = (shutdown_result (check_inbox_task self),
     set_trace (λ t, t ++ shutdown_events aid (check_inbox_task self))
       (set_objects (alter retire aid) (shutdown_prefix aid self w))).
Proof.
  intros Hself. pose proof (shutdown_prefix_objects aid self w Hself) as Hpre.
  revert Hpre. unfold Agent_shutdown, shutdown_prefix, the_agent.
  unfold mbind at 1, M_bind at 1. unfold gets at 1. cbv beta.
  unfold mbind at 1, M_bind at 1. cbv beta iota. rewrite Hself.
  unfold mret at 1, M_ret at 1. cbv beta iota.
  set (w1 := if stopped self then w
             else set_trace (λ t, t ++ [SetStopped aid])
                    (set_objects (alter (set_stopped true) aid) w)).
  assert (running w1 = running w) as Hrun by (subst w1; by destruct (stopped self)).
  unfold mbind at 1, M_bind at 1.
  assert ((when (negb (stopped self))
             (modify (set_objects (alter (set_stopped true) aid));;
              emit (SetStopped aid))) w = (Ok (), w1)) as ->.
  { subst w1. by destruct (stopped self). }
  cbv beta iota.
  unfold mbind at 1, M_bind at 1. unfold gets at 1. cbv beta iota.
  rewrite Hrun.
  set (w2 := if running w
             then exec (deregister_agent aid)
                    (set_trace (λ t, t ++ [DeregisterAgent aid]) w1)
             else w1).
  unfold mbind at 1, M_bind at 1.
  assert ((when (running w) (emit (DeregisterAgent aid);; deregister_agent aid))
            w1 = (Ok (), w2)) as ->.
  { subst w2. destruct (running w); [|done]. unfold when.
    unfold mbind, M_bind, emit, modify. cbv beta iota.
    by rewrite deregister_agent_exec. }
  cbv beta iota. intros Hpre. clearbody w2. clear w1 Hrun.
  unfold await_check_inbox_task, the_agent. unfold_M.
  cbn [objects set_objects set_trace fst snd].
  rewrite alter_alter_eq, lookup_alter, decide_True, Hpre by done.
  cbn [fmap option_fmap option_map].
  unfold compose, shutdown_events, shutdown_result.
  cbn [check_inbox_task set_check_inbox_task set_done_callback set_stopped].
  destruct w2 as [a0 r0 ag0 ib0 it0 as0 sc0 ps0 fu0 re0 aw0 ob0 tr0].
  destruct (check_inbox_task self) as [| | |e]; cbn [task_cancel task_await];
    try case_bool_decide;
    cbv beta iota zeta delta
      [set_trace set_objects addr running agents inbox inbox_topic
       additional_subscriptions subscriptions_to_class pending_sub_request
       futures ready awaiting objects trace];
    rewrite ?alter_alter_eq, <- ?app_assoc; try reflexivity.
  all: congruence.
Qed.

Lemma Agent_shutdown_unknown aid w :
  objects w !! aid = None → Agent_shutdown aid w = (Err (KeyError aid), w).
Proof.
  intros Hnone. unfold Agent_shutdown, the_agent.
  unfold mbind, M_bind, gets. by rewrite Hnone.
Qed.

(** ** The shape of a step *)

Lemma quiet_set_objects f w : quiet w (set_objects f w).
Proof. by repeat split. Qed.

Lemma quiet_shutdown_events aid t w :
  quiet w (set_trace (λ tr, tr ++ shutdown_events aid t) w).
Proof.
  repeat split; try done; simpl;
    unfold subscribe_calls, unsubscribe_calls, shutdown_events;
    rewrite count_events_app; destruct t; simpl; unfold count_events; simpl; lia.
Qed.

(** Every operation is quiet, or registers an agent, or is a call of
    [subscribe_for_agent], or is a call of [deregister_agent] between quiet
    steps. *)
Lemma run_op_shape o w :
  quiet w (run_op o w)
  ∨ (∃ aid, agents (run_op o w) = agents w ∪ {[aid]}
            ∧ additional_subscriptions (run_op o w) = additional_subscriptions w
            ∧ trace (run_op o w) = trace w
            ∧ addr (run_op o w) = addr w
            ∧ inbox_topic (run_op o w) = inbox_topic w)
  ∨ (∃ aid topic qos cls rc,
       run_op o w = exec (subscribe_for_agent aid topic qos cls rc) w)
  ∨ (∃ aid w0, quiet w w0
               ∧ quiet (exec (deregister_agent aid) w0) (run_op o w)).
Proof.
  destruct o; cbn [run_op].
  - case_bool_decide; [by left|]. right. left. by exists aid.
  - right. right. left. by repeat eexists.
  - left. apply quiet_set_expected_class.
  - left. apply quiet_send_message.
  - right. right. right. by exists aid, w.
  - left. apply quiet_on_sub.
  - left. apply quiet_on_msg.
  - left. apply quiet_run_callback.
  - left. apply quiet_dispatch.
  - left. apply quiet_check_inbox.
  - unfold exec. destruct (objects w !! aid) as [self|] eqn:Hself;
      [|rewrite Agent_shutdown_unknown by done; by left].
    rewrite (Agent_shutdown_eq _ self) by done. cbn [snd].
    assert (quiet w (if stopped self then w
                     else set_trace (λ t, t ++ [SetStopped aid])
                            (set_objects (alter (set_stopped true) aid) w)))
      as Hq1.
    { destruct (stopped self); [done|].
      etrans; [apply quiet_set_objects | by apply quiet_set_trace]. }
    unfold shutdown_prefix. cbv zeta. destruct (running w).
    + right. right. right.
      exists aid, (set_trace (λ t, t ++ [DeregisterAgent aid])
                     (if stopped self then w
                      else set_trace (λ t, t ++ [SetStopped aid])
                             (set_objects (alter (set_stopped true) aid) w))).
      split.
      * etrans; [exact Hq1 | by apply quiet_set_trace].
      * etrans; [apply quiet_set_objects | apply quiet_shutdown_events].
    + left. etrans; [exact Hq1|].
      etrans; [apply quiet_set_objects | apply quiet_shutdown_events].
  - left. apply quiet_container_shutdown.
Qed.

(** ** The routing table after every history *)

Lemma routing_inv_quiet w w' : quiet w w' → routing_inv w → routing_inv w'.
Proof.
  intros Hq (Hs & Hn & Hb). pose proof Hq as (Ha & Hsub & _ & _ & Hc).
  split_and!.
  - by eapply subs_inv_quiet.
  - unfold nonempty_inv. by rewrite Hsub.
  - intros topic. destruct (Hc topic) as [-> ->]. rewrite Hsub. apply Hb.
Qed.

Lemma pops_filter {V} (ks : list string) (d : odict V) :
  NoDup (od_keys d) →
  foldl (λ d k, od_pop k d) d ks = filter (λ p, p.1 ∉ ks) d.
Proof.
  revert d. induction ks as [|k ks IH]; intros d Hnd; cbn [foldl].
  - symmetry. apply filter_all, Forall_forall. intros p _. apply not_elem_of_nil.
  - rewrite IH by by apply od_keys_pop_nodup. rewrite od_pop_filter by done.
    rewrite list_filter_filter. apply list_filter_iff. intros p.
    rewrite not_elem_of_cons. tauto.
Qed.

Lemma filter_ext_in {A} (P Q : A → Prop) `{!∀ x, Decision (P x)}
    `{!∀ x, Decision (Q x)} (l : list A) :
  (∀ x, x ∈ l → P x ↔ Q x) → filter P l = filter Q l.
Proof.
  induction l as [|x l IH]; intros Hl; [done|].
  rewrite !filter_cons. rewrite IH by (intros y Hy; apply Hl; by right).
  destruct (decide (P x)) as [HP|HP], (decide (Q x)) as [HQ|HQ]; try done;
    exfalso; apply (Hl x) in HP || apply (Hl x) in HQ; try done; by left.
Qed.

Lemma deregister_remaining aid d :
  NoDup (od_keys d) →
  foldl (λ d k, od_pop k d) (without aid d) (emptied aid d) = remaining aid d.
Proof.
  intros Hnd. unfold remaining.
  assert (NoDup (od_keys (without aid d))) as Hnd' by by rewrite without_keys.
  rewrite pops_filter by done. apply filter_ext_in. intros [k X] Hin. simpl.
  rewrite emptied_elem by done. split.
  - intros Hnot ->. apply Hnot.
    apply without_elem in Hin as (X0 & Hin & HX0).
    exists X0. split; [by apply od_elem_get | done].
  - intros HX (X0 & Hget & He). apply HX.
    apply od_elem_get in Hin; [|done].
    rewrite without_get, Hget in Hin. by injection Hin as <-.
Qed.

Lemma emptied_sole aid d :
  (∀ sub X, (sub, X) ∈ d → X ≠ ∅) → emptied aid d = sole_subscriptions aid d.
Proof.
  intros Hne. unfold emptied, sole_subscriptions, without.
  induction d as [|[k X] d IH]; [done|].
  rewrite fmap_cons, !filter_cons. cbn [prod_map fst snd id].
  assert (X ≠ ∅) as HX by (apply (Hne k); by left).
  assert (∀ sub Y, (sub, Y) ∈ d → Y ≠ ∅) as Hd
    by (intros sub Y Hin; apply (Hne sub); by right).
  specialize (IH Hd).
  destruct (decide (X ∖ {[aid]} = ∅)) as [He|He],
    (decide (X = {[aid]})) as [Hs|Hs];
    rewrite ?fmap_cons; cbn [fst]; rewrite ?IH; try done.
  - exfalso. apply Hs. apply set_eq. intros x. rewrite elem_of_singleton.
    split.
    + intros Hx. destruct (decide (x = aid)) as [|Hne']; [done|].
      assert (x ∈ X ∖ {[aid]}) as Hin by set_solver. rewrite He in Hin.
      by apply not_elem_of_empty in Hin.
    + intros ->. apply set_choose_L in HX as [y Hy].
      destruct (decide (y = aid)) as [<-|Hne']; [done|].
      assert (y ∈ X ∖ {[aid]}) as Hin by set_solver. rewrite He in Hin.
      by apply not_elem_of_empty in Hin.
  - exfalso. apply He. rewrite Hs. set_solver.
Qed.

Lemma routing_inv_deregister aid w :
  routing_inv w → routing_inv (exec (deregister_agent aid) w).
Proof.
  intros (Hs & Hn & Hb). pose proof Hs as [Hnd _].
  split_and!; [by apply subs_inv_deregister | |].
  - unfold nonempty_inv, exec. rewrite deregister_agent_eq. fields.
    rewrite deregister_remaining by done.
    intros sub X [HX _]%list_elem_of_filter. done.
  - intros topic. unfold exec. rewrite deregister_agent_eq. fields.
    unfold subscribe_calls, unsubscribe_calls. rewrite !count_events_app.
    fold (subscribe_calls topic (trace w)).
    fold (unsubscribe_calls topic (trace w)).
    fold (subscribe_calls topic
            (Unsubscribe <$> emptied aid (additional_subscriptions w))).
    fold (unsubscribe_calls topic
            (Unsubscribe <$> emptied aid (additional_subscriptions w))).
    rewrite subscribe_calls_fmap, unsubscribe_calls_fmap
      by by apply emptied_nodup.
    rewrite (Hb topic).
    assert (od_mem topic
              (foldl (λ d k, od_pop k d)
                 (without aid (additional_subscriptions w))
                 (emptied aid (additional_subscriptions w)))
            = if decide (topic ∈ emptied aid (additional_subscriptions w))
              then false
              else od_mem topic (additional_subscriptions w)) as ->.
    { unfold od_mem. rewrite pops_get by by rewrite without_keys.
      rewrite without_get. case_decide.
      - apply bool_decide_eq_false_2. by intros [? ?].
      - apply bool_decide_ext. rewrite fmap_is_Some. done. }
    destruct (decide (topic ∈ emptied aid (additional_subscriptions w)))
      as [Hin|Hin]; [|lia].
    apply emptied_elem in Hin as (X & HX & _); [|done].
    assert (od_mem topic (additional_subscriptions w) = true) as ->.
    { apply od_mem_true. by eexists. }
    lia.
Qed.

Lemma od_mem_set {V} (k k' : string) (v : V) (d : odict V) :
  od_mem k' (od_set k v d) = bool_decide (k' = k) || od_mem k' d.
Proof.
  unfold od_mem. rewrite od_get_set. case_decide; subst.
  - rewrite (bool_decide_eq_true_2 (k = k)) by done.
    apply bool_decide_eq_true_2. by eexists.
  - by rewrite (bool_decide_eq_false_2 (k' = k)) by done.
Qed.

Lemma od_mem_alter {V} (f : V → V) (k k' : string) (d : odict V) :
  od_mem k' (od_alter f k d) = od_mem k' d.
Proof.
  unfold od_mem. rewrite od_get_alter. case_decide; subst; [|done].
  apply bool_decide_ext. by rewrite fmap_is_Some.
Qed.

Lemma routing_inv_subscribe aid topic qos cls rc w :
  routing_inv w →
  routing_inv (exec (subscribe_for_agent aid topic qos cls rc) w).
Proof.
  intros (Hs & Hn & Hb). split_and!; [by apply subs_inv_subscribe | |].
  all: unfold exec;
    destruct (bind_class_fields topic cls w) as (Ha & Hsub & _ & Ht & _);
    (destruct (decide (aid ∈ agents w)) as [Hin|Hin];
       [|rewrite subscribe_unknown by done; first [exact Hn | exact Hb]]);
    unfold nonempty_inv, balanced;
    destruct (od_mem topic (additional_subscriptions w)) eqn:Hm;
    [ rewrite subscribe_present by done
    | destruct (decide (rc = MQTT_ERR_SUCCESS)) as [->|Hrc];
      [ rewrite subscribe_accepted by done
      | rewrite subscribe_rejected by done ] ].
  - fields. rewrite Hsub. intros sub X [H|(-> & X0 & H & ->)]%od_elem_alter;
      [by eapply Hn | set_solver].
  - fields. rewrite Hsub.
    intros sub X [H|[-> ->]]%od_elem_set; [by eapply Hn | set_solver].
  - fields. rewrite Hsub.
    intros sub X [H|[-> ->]]%od_elem_set; [by eapply Hn | set_solver].
  - intros topic'. fields. rewrite Hsub, Ht, od_mem_alter. apply Hb.
  - intros topic'. fields. rewrite Hsub, Ht, od_mem_set.
    unfold subscribe_calls, unsubscribe_calls. rewrite !count_events_snoc.
    fold (subscribe_calls topic' (trace w)).
    fold (unsubscribe_calls topic' (trace w)). rewrite (Hb topic'). simpl.
    rewrite (bool_decide_ext (topic = topic') (topic' = topic)) by done.
    case_bool_decide; subst; simpl; [rewrite Hm|]; lia.
  - intros topic'. fields. rewrite Hsub, Ht, od_mem_set.
    unfold subscribe_calls, unsubscribe_calls. rewrite !count_events_snoc.
    fold (subscribe_calls topic' (trace w)).
    fold (unsubscribe_calls topic' (trace w)). rewrite (Hb topic'). simpl.
    rewrite (bool_decide_ext (topic = topic') (topic' = topic)) by done.
    case_bool_decide; subst; simpl; [rewrite Hm|]; lia.
Qed.

Lemma routing_inv_run_op o w : routing_inv w → routing_inv (run_op o w).
Proof.
  intros Hw.
  destruct (run_op_shape o w)
    as [Hq|[(aid & Ha & Hs & Ht & _)|[(aid & topic & qos & cls & rc & ->)
       |(aid & w0 & Hq0 & Hq1)]]].
  - by eapply routing_inv_quiet.
  - destruct Hw as ([Hnd Hsub] & Hn & Hb). split_and!.
    + split; rewrite Hs; [done|]. intros sub X Hin. rewrite Ha.
      specialize (Hsub _ _ Hin). set_solver.
    + unfold nonempty_inv. by rewrite Hs.
    + intros topic. rewrite Ht, Hs. apply Hb.
  - by apply routing_inv_subscribe.
  - eapply routing_inv_quiet; [exact Hq1|]. apply routing_inv_deregister.
    by eapply routing_inv_quiet.
Qed.

Lemma routing_inv_run ops a : routing_inv (run ops (init a)).
Proof.
  induction ops as [|o ops IH] using rev_ind.
  - split_and!; [apply subs_inv_init | by intros ? ? ?%elem_of_nil |].
    intros topic. reflexivity.
  - rewrite run_snoc. by apply routing_inv_run_op.
Qed.

(** No subscription is left with an empty set of agents: after any history,
    every key of [additional_subscriptions] has at least one subscriber. *)
Theorem no_subscription_is_empty ops a sub X :
  (sub, X) ∈ additional_subscriptions (run ops (init a)) → X ≠ ∅.
Proof.
  intros Hin. destruct (routing_inv_run ops a) as (_ & Hn & _).
  by apply (Hn sub X).
Qed.

(** The broker's view follows the table: after any history, a topic has been
    subscribed to once more than it has been unsubscribed from when it is a
    key of [additional_subscriptions], and as often otherwise. *)
Theorem broker_subscriptions_mirror_the_table ops a topic :
  let w := run ops (init a) in
  subscribe_calls topic (trace w)
  = (unsubscribe_calls topic (trace w)
     + if od_mem topic (additional_subscriptions w) then 1 else 0)%nat.
Proof.
  intros w. destruct (routing_inv_run ops a) as (_ & _ & Hb). apply Hb.
Qed.

Lemma remaining_untouched aid d :
  (∀ sub X, (sub, X) ∈ d → X ≠ ∅ ∧ aid ∉ X) →
  remaining aid d = d ∧ sole_subscriptions aid d = [].
Proof.
  intros Hd. unfold remaining, sole_subscriptions, without.
  induction d as [|[k X] d IH]; [done|].
  destruct (Hd k X) as [HX Hn]; [by left|].
  destruct IH as [IH1 IH2]; [intros sub Y Hin; apply (Hd sub); by right|].
  rewrite fmap_cons, !filter_cons. cbn [prod_map fst snd id].
  assert (X ∖ {[aid]} = X) as -> by set_solver.
  rewrite decide_True by done. rewrite IH1.
  rewrite decide_False by set_solver. by rewrite IH2.
Qed.

(** [deregister_agent] of a registered agent, after any history: the agent
    leaves the registry and every set; the subscriptions it was the only
    subscriber of are dropped and unsubscribed at the broker, in the order of
    the dictionary; the other subscriptions keep their place, the expected
    classes bound to topics stay as they are, also for the topics dropped.
    An agent that is in no subscription changes neither the table nor the
    trace. *)
Theorem deregister_agent_drops_sole_subscriptions ops a aid :
  let w := run ops (init a) in
  let w' := exec (deregister_agent aid) w in
  aid ∈ agents w →
  result (deregister_agent aid) w = Ok ()
  ∧ agents w' = agents w ∖ {[aid]}
  ∧ additional_subscriptions w' = remaining aid (additional_subscriptions w)
  ∧ trace w'
    = trace w
      ++ (Unsubscribe <$> sole_subscriptions aid (additional_subscriptions w))
  ∧ subscriptions_to_class w' = subscriptions_to_class w
  ∧ objects w' = objects w
  ∧ ((∀ sub X, (sub, X) ∈ additional_subscriptions w → aid ∉ X) →
     additional_subscriptions w' = additional_subscriptions w
     ∧ trace w' = trace w).
Proof.
  intros w w' _. destruct (routing_inv_run ops a) as ([Hnd _] & Hn & _).
  fold w in Hnd, Hn.
  assert (additional_subscriptions w'
          = remaining aid (additional_subscriptions w)) as Hsubs.
  { subst w'. unfold exec. rewrite deregister_agent_eq. fields.
    by apply deregister_remaining. }
  assert (trace w'
          = trace w ++ (Unsubscribe
                          <$> sole_subscriptions aid (additional_subscriptions w)))
    as Htrace.
  { subst w'. unfold exec. rewrite deregister_agent_eq. fields.
    by rewrite emptied_sole. }
  split_and!; try done.
  - unfold result. by rewrite deregister_agent_eq.
  - subst w'. unfold exec. by rewrite deregister_agent_eq.
  - subst w'. unfold exec. by rewrite deregister_agent_eq.
  - subst w'. unfold exec. by rewrite deregister_agent_eq.
  - intros Hnot. rewrite Hsubs, Htrace.
    destruct (remaining_untouched aid (additional_subscriptions w)) as [-> ->].
    + intros sub X Hin. split; [by apply (Hn sub X) | by apply (Hnot sub X)].
    + by rewrite app_nil_r.
Qed.


(** ** Futures *)

Lemma futs_inv_frame w w' :
  pending_sub_request w' = pending_sub_request w →
  futures w' = futures w →
  ready w' = ready w →
  futs_inv w → futs_inv w'.
Proof. unfold futs_inv. by intros -> -> ->. Qed.

Lemma futs_inv_trace f w : futs_inv w → futs_inv (set_trace f w).
Proof. by apply futs_inv_frame. Qed.

Lemma futs_inv_deregister aid : preserves futs_inv (deregister_agent aid).
Proof.
  intros w Hw. unfold exec. rewrite deregister_agent_eq.
  by eapply futs_inv_frame; [..|exact Hw].
Qed.

Lemma futs_inv_handle_msg priority msg_content meta :
  preserves futs_inv (_handle_msg priority msg_content meta).
Proof.
  unfold _handle_msg, inbox_put.
  preserves_go futs_inv_frame futs_inv_trace.
  intros w Hw. unfold exec. by rewrite collect_receivers_world.
Qed.

Lemma futs_inv_set_result f v : preserves futs_inv (future_set_result f v).
Proof.
  unfold future_set_result. preserves_go futs_inv_frame futs_inv_trace.
  apply preserves_modify. intros w [Hp Hr]. split; simpl.
  - intros g Hg. rewrite length_insert. by apply Hp.
  - intros g u Hg. rewrite length_insert. by apply (Hr g u).
Qed.

Lemma futs_inv_subscribe aid topic qos cls rc :
  preserves futs_inv (subscribe_for_agent aid topic qos cls rc).
Proof.
  intros w [Hp Hr]. unfold exec.
  assert (pending_sub_request (bind_class topic cls w) = pending_sub_request w
          ∧ futures (bind_class topic cls w) = futures w
          ∧ ready (bind_class topic cls w) = ready w) as (Hbp & Hbf & Hbr)
    by by destruct cls.
  destruct (decide (aid ∈ agents w)) as [Hin|Hin];
    [|by rewrite subscribe_unknown].
  destruct (od_mem topic (additional_subscriptions w)) eqn:Hm;
    [ rewrite subscribe_present by done
    | destruct (decide (rc = MQTT_ERR_SUCCESS)) as [->|Hrc];
      [ rewrite subscribe_accepted by done
      | rewrite subscribe_rejected by done ] ].
  - split; fields; rewrite ?Hbp, ?Hbf, ?Hbr; [apply Hp | apply Hr].
  - split; fields; rewrite ?Hbf, ?Hbr, length_app; simpl.
    + intros f [= <-]. lia.
    + intros f v Hf. specialize (Hr f v Hf). lia.
  - split; fields; rewrite ?Hbf, ?Hbr, length_app; simpl.
    + intros f [= <-]. lia.
    + intros f v Hf. specialize (Hr f v Hf). lia.
Qed.

Lemma futs_inv_shutdown aid : preserves futs_inv (Agent_shutdown aid).
Proof.
  intros w Hw. unfold exec.
  destruct (objects w !! aid) as [self|] eqn:Hself;
    [|by rewrite Agent_shutdown_unknown].
  rewrite (Agent_shutdown_eq _ self) by done. cbn [snd].
  apply futs_inv_trace. eapply futs_inv_frame; [reflexivity..|].
  unfold shutdown_prefix.
  assert (futs_inv (if stopped self then w
                    else set_trace (λ t, t ++ [SetStopped aid])
                           (set_objects (alter (set_stopped true) aid) w)))
    as Hw1.
  { destruct (stopped self); [done|]. by eapply futs_inv_frame; [..|exact Hw]. }
  destruct (running w); [|done].
  apply futs_inv_deregister. by apply futs_inv_trace.
Qed.

Lemma futs_inv_on_sub : preserves futs_inv (in_thread on_sub).
Proof.
  intros w [Hp Hr]. unfold exec, in_thread, on_sub, call_soon_threadsafe.
  unfold mbind, M_bind, gets, modify, raise.
  destruct (pending_sub_request w) as [f|] eqn:Hpend.
  - split; fields.
    + rewrite Hpend. apply Hp.
    + intros g v [Hg|[= -> ->]%list_elem_of_singleton]%elem_of_app;
        [by apply (Hr g v) | by apply Hp].
  - apply futs_inv_trace. split; [rewrite Hpend; exact Hp | exact Hr].
Qed.

Lemma futs_inv_run_callback : preserves futs_inv run_callback.
Proof.
  intros w Hw. unfold exec, run_callback.
  unfold mbind at 1, M_bind at 1, gets at 1. cbv beta iota.
  destruct (ready w) as [|cb rest] eqn:Hready; [done|].
  assert (futs_inv (set_ready (λ _, rest) w)) as Hw1.
  { destruct Hw as [Hp Hr]. split; [done|]. fields. intros g v Hg.
    apply (Hr g v). rewrite Hready. by right. }
  unfold mbind, M_bind. unfold modify at 1. cbv beta iota.
  revert Hw1. generalize (set_ready (λ _, rest) w). intros w1 Hw1.
  apply (preserves_in_loop _ futs_inv_trace
           match cb with
           | SetResult f v => future_set_result f v
           | PutNowait m => modify (set_inbox (λ q, q ++ [m]))
           end); [|done].
  destruct cb; [apply futs_inv_set_result|].
  apply preserves_modify. intros w2 Hw2.
  by eapply futs_inv_frame; [..|exact Hw2].
Qed.

Lemma futs_inv_run_op o w : futs_inv w → futs_inv (run_op o w).
Proof.
  destruct o; cbn [run_op].
  - case_bool_decide; [done|]. intros Hw.
    by eapply futs_inv_frame; [..|exact Hw].
  - apply futs_inv_subscribe.
  - intros Hw. by eapply futs_inv_frame; [..|exact Hw].
  - revert w. change (preserves futs_inv
      (send_message content receiver_addr receiver_id create_acl acl_metadata
         mqtt_kwargs kwargs)).
    unfold send_message, _send_external_message.
    preserves_go futs_inv_frame futs_inv_trace.
  - apply futs_inv_deregister.
  - apply futs_inv_on_sub.
  - revert w. change (preserves futs_inv
      (in_thread (on_msg topic payload qos retain))).
    unfold on_msg, decode_mqtt_msg, extract_meta, get_content,
      call_soon_threadsafe.
    preserves_go futs_inv_frame futs_inv_trace.
    all: apply preserves_modify; intros w [Hp Hr]; split; [done|]; fields.
    all: intros fut val [Hg|Hg%list_elem_of_singleton]%elem_of_app;
      [by apply (Hr fut val) | done].
  - apply futs_inv_run_callback.
  - revert w. change (preserves futs_inv dispatch).
    unfold dispatch. preserves_go futs_inv_frame futs_inv_trace.
    apply futs_inv_handle_msg.
  - revert w. change (preserves futs_inv (_check_inbox aid handler)).
    unfold _check_inbox, run_done_callbacks, raise_exceptions, the_agent.
    preserves_go futs_inv_frame futs_inv_trace.
  - apply futs_inv_shutdown.
  - intros Hw. by eapply futs_inv_frame; [..|exact Hw].
Qed.

Lemma futs_inv_run ops a : futs_inv (run ops (init a)).
Proof.
  induction ops as [|o ops IH] using rev_ind.
  - split; simpl; [done | by intros ? ? ?%elem_of_nil].
  - rewrite run_snoc. by apply futs_inv_run_op.
Qed.

(** ** A subscription that is awaited *)

Lemma run_callback_head cb rest w :
  ready w = cb :: rest →
  ∃ w', run_callback w = (Ok (), w')
        ∧ ready w' = rest
        ∧ (∀ f, (∀ v, cb ≠ SetResult f v) → futures w' !! f = futures w !! f)
        ∧ (∀ f v, cb = SetResult f v → futures w !! f = Some FPending →
             futures w' !! f = Some (FResult v) ∧ f ∉ awaiting w').
Proof.
  intros Hready. unfold run_callback.
  unfold mbind at 1, M_bind at 1, gets at 1. cbv beta iota. rewrite Hready.
  unfold mbind, M_bind. unfold modify at 1. cbv beta iota.
  destruct cb as [g u|m]; unfold in_loop.
  - unfold future_set_result, mbind, M_bind, gets, modify, raise.
    cbv beta iota. fields.
    destruct (futures w !! g) as [[|x]|] eqn:Hg.
    + eexists. split; [reflexivity|]. fields. split_and!; [done| |].
      * intros f Hf. apply list_lookup_insert_ne. intros <-. by apply (Hf u).
      * intros f v [= <- <-] _. split.
        -- apply list_lookup_insert_eq. by eapply lookup_lt_Some.
        -- intros [Hne _]%list_elem_of_filter. done.
    + eexists. split; [reflexivity|]. fields. split_and!; [done..|].
      intros f v [= <- <-] Hf. congruence.
    + eexists. split; [reflexivity|]. fields. split_and!; [done..|].
      intros f v [= <- <-] Hf. congruence.
  - unfold modify. eexists. split; [reflexivity|]. fields.
    split_and!; [done..|]. intros f v [=].
Qed.

Lemma drain_resolves f v q w :
  ready w = q ++ [SetResult f v] →
  futures w !! f = Some FPending →
  (∀ u, SetResult f u ∉ q) →
  ∃ w', for_each (q ++ [SetResult f v]) (λ _, run_callback) w = (Ok (), w')
        ∧ futures w' !! f = Some (FResult v)
        ∧ ready w' = []
        ∧ f ∉ awaiting w'.
Proof.
  revert w. induction q as [|cb q IH]; intros w Hready Hf Hq.
  - destruct (run_callback_head _ _ _ Hready) as (w' & Hrun & Hr & _ & Hset).
    destruct (Hset f v eq_refl Hf) as [Hres Haw].
    exists w'. cbn [app for_each]. unfold mbind, M_bind. rewrite Hrun.
    by split_and!.
  - destruct (run_callback_head _ _ _ Hready) as (w1 & Hrun & Hr & Hother & _).
    destruct (IH w1) as (w' & Hrest & Hres & Hr' & Haw).
    + done.
    + rewrite Hother; [done|]. intros u ->. apply (Hq u). by left.
    + intros u Hu. apply (Hq u). by right.
    + exists w'. cbn [app for_each]. unfold mbind, M_bind. rewrite Hrun.
      by split_and!.
Qed.

(** A call of [subscribe_for_agent] that is awaited before anything else
    happens completes: after any history, also one that has left futures
    unresolved or callbacks posted, the subscription of a registered agent
    to a topic that has no entry yet, accepted by the broker client and
    acknowledged by the broker, returns [True]; its future is resolved, no
    coroutine is left waiting for it and nothing is left for the loop to
    run. *)
Theorem awaited_subscription_completes ops a aid topic qos cls :
  let w := run ops (init a) in
  let w' := exec (subscribe_and_wait aid topic qos cls MQTT_ERR_SUCCESS) w in
  aid ∈ agents w →
  od_mem topic (additional_subscriptions w) = false →
  result (subscribe_and_wait aid topic qos cls MQTT_ERR_SUCCESS) w
    = Ok (Return true)
  ∧ futures w' !! length (futures w) = Some (FResult (VInt 0))
  ∧ length (futures w) ∉ awaiting w'
  ∧ ready w' = []
  ∧ od_get topic (additional_subscriptions w') = Some {[aid]}.
Proof.
  intros w w' Hin Hm. destruct (futs_inv_run ops a) as [_ Hr]. fold w in Hr.
  assert (ready (bind_class topic cls w) = ready w
          ∧ futures (bind_class topic cls w) = futures w) as [Hbr Hbf]
    by by destruct cls.
  set (f := length (futures w)).
  set (w1 := set_awaiting (λ l, l ++ [f])
               (set_futures (λ fs, fs ++ [FPending])
                  (set_trace (λ t, t ++ [Subscribe topic qos])
                     (set_pending_sub_request (Some f)
                        (set_additional_subscriptions (od_set topic {[aid]})
                           (bind_class topic cls w)))))).
  set (w2 := set_ready (λ q, q ++ [SetResult f (VInt 0)]) w1).
  destruct (drain_resolves f (VInt 0) (ready w) w2)
    as (w3 & Hdrain & Hres & Hready & Haw).
  { subst w2 w1. fields. by rewrite Hbr. }
  { subst w2 w1. fields. rewrite Hbf. apply list_lookup_middle. done. }
  { intros u Hu. specialize (Hr f u Hu). subst f. lia. }
  assert (subscribe_and_wait aid topic qos cls MQTT_ERR_SUCCESS w
          = (Ok (Return true), w3)) as Hrun.
  { unfold subscribe_and_wait. unfold mbind at 1, M_bind at 1.
    rewrite subscribe_accepted by done. fold f. fold w1.
    unfold mbind at 1, M_bind at 1.
    assert (in_thread on_sub w1 = (Ok (), w2)) as ->.
    { unfold in_thread, on_sub, call_soon_threadsafe, mbind, M_bind, gets,
        modify. by subst w1. }
    unfold drain. unfold mbind at 1, M_bind at 1.
    unfold mbind at 1, M_bind at 1. unfold gets at 1. cbv beta iota.
    assert (ready w2 = ready w ++ [SetResult f (VInt 0)]) as ->.
    { subst w2 w1. fields. by rewrite Hbr. }
    rewrite Hdrain. unfold mbind, M_bind, gets. by rewrite Hres. }
  subst w'. unfold result, exec. rewrite Hrun. fields.
  split_and!; try done.
  destruct (first_subscription aid topic qos cls MQTT_ERR_SUCCESS w Hin Hm)
    as (_ & Hsubs & _).
  unfold exec in Hsubs. rewrite Hrun in Hsubs. fields. cbn [snd] in Hsubs.
  rewrite Hsubs, od_get_set. by rewrite decide_True.
Qed.

(** ** Incoming messages, from the broker thread to the agents *)



Lemma transport_meta_topic topic qos retain :
  transport_meta topic qos retain !! "topic" = Some (VStr topic).
Proof. done. Qed.



(** ** A message to the container's own address *)

Lemma addresses_run_op o w :
  addr (run_op o w) = addr w ∧ inbox_topic (run_op o w) = inbox_topic w.
Proof.
  assert (∀ aid w0, addr (exec (deregister_agent aid) w0) = addr w0
                    ∧ inbox_topic (exec (deregister_agent aid) w0)
                      = inbox_topic w0) as Hdereg.
  { intros aid w0. unfold exec. by rewrite deregister_agent_eq. }
  destruct (run_op_shape o w)
    as [(_ & _ & Hi & Ha & _)|[(aid & _ & _ & _ & Ha & Hi)
       |[(aid & topic & qos & cls & rc & ->)
       |(aid & w0 & (_ & _ & Hi0 & Ha0 & _) & (_ & _ & Hi1 & Ha1 & _))]]];
    [done | done | |].
  - assert (addr (bind_class topic cls w) = addr w
            ∧ inbox_topic (bind_class topic cls w) = inbox_topic w) as [Hba Hbi]
      by by destruct cls.
    unfold exec.
    destruct (decide (aid ∈ agents w)) as [Hin|Hin];
      [|by rewrite subscribe_unknown].
    destruct (od_mem topic (additional_subscriptions w)) eqn:Hm;
      [ rewrite subscribe_present by done
      | destruct (decide (rc = MQTT_ERR_SUCCESS)) as [->|Hrc];
        [ rewrite subscribe_accepted by done
        | rewrite subscribe_rejected by done ] ]; fields; done.
  - destruct (Hdereg aid w0) as [Ha Hi]. split; congruence.
Qed.

Lemma addresses_run ops a :
  addr (run ops (init a)) = a ∧ inbox_topic (run ops (init a)) = a.
Proof.
  induction ops as [|o ops [IHa IHi]] using rev_ind; [done|].
  rewrite run_snoc. destruct (addresses_run_op o (run ops (init a))).
  split; congruence.
Qed.

(** A message that an agent sends to its own container's address reaches its
    receiver without the broker.  After any history that leaves the
    container's inbox empty, [send_message] to the non-empty inbox address,
    without the retain flag, of a message whose envelope names a registered
    agent in ["receiver_id"] and carries no ["topic"] field, followed by the
    dispatch of the inbox: nothing is published, and the receiver, and no
    other agent, gets the tuple of priority 0, the content and the local
    metadata overlaid with the envelope fields. *)
Theorem message_to_own_address_reaches_the_agent
    ops a r content rid ca am mk kwargs inner fields :
  let w := run ops (init (Some a)) in
  let w' := run [SendMessage content a rid ca am mk kwargs; Dispatch] w in
  let delivered :=
    local_entry (OACL inner fields) a kwargs in
  a ≠ "" →
  retain_requested kwargs = false →
  inbox w = [] →
  outgoing w content a rid ca am = OACL inner fields →
  split_content_and_meta inner = None →
  fields !! "receiver_id" = Some (VStr r) →
  fields !! "topic" = None →
  r ≠ "" →
  r ∈ agents w →
  publishes (trace w') = publishes (trace w)
  ∧ inbox w' = []
  ∧ objects w' = alter (deliver delivered) r (objects w)
  ∧ delivered.1 = (0, inner)
  ∧ delivered.2 !! "receiver_id" = Some (VStr r)
  ∧ delivered.2 !! "topic" = Some (VStr a).
Proof.
  intros w w' delivered Ha Hretain Hinbox Hout Hinner Hrid Hnotopic Hr Hreg.
  destruct (addresses_run ops (Some a)) as [Haddr Hit].
  fold w in Haddr, Hit.
  assert (delivered.2 !! "receiver_id" = Some (VStr r)) as Hdr.
  { subst delivered. unfold local_entry, split_into, dict_update.
    cbn [snd split_content_and_meta]. by apply lookup_union_Some_l. }
  assert (delivered.2 !! "topic" = Some (VStr a)) as Hdt.
  { subst delivered. unfold local_entry, split_into, dict_update.
    cbn [snd split_content_and_meta]. by rewrite lookup_union_r. }
  assert (delivered.1 = (0, inner)) as Hd1 by done.
  set (w1 := set_inbox (λ _, [])
               (set_inbox (λ q, q ++ [delivered])
                  (set_trace (λ t, t ++ deprecations ca am mk) w))).
  assert (w' = exec (in_loop (_handle_msg 0 inner delivered.2)) w1)
    as Hw'.
  { subst w'. unfold run. cbn [foldl run_op]. unfold exec at 2.
    rewrite send_message_local; [|by rewrite Haddr; cbn [truthy_addr truthy];
      rewrite bool_decide_eq_false_2 | done | done].
    rewrite Hout. fold delivered. cbn [snd].
    unfold exec, dispatch.
    unfold mbind at 1, M_bind at 1, gets at 1. cbv beta iota. fields.
    rewrite Hinbox. cbn [app]. destruct delivered as [[p c] m] eqn:Hdel.
    injection Hd1 as -> ->.
    unfold mbind at 1, M_bind at 1. unfold modify at 1. cbv beta iota. done. }
  assert (_handle_msg 0 inner delivered.2 w1
          = (Ok (), set_objects (alter (deliver delivered) r) w1)) as Hrun.
  { unfold _handle_msg. unfold mbind, M_bind, get, mret, M_ret.
    rewrite Hdt. unfold split_into. rewrite Hinner.
    change (inbox_topic w1) with (inbox_topic w). rewrite Hit.
    cbn [topic_is]. rewrite bool_decide_eq_true_2 by done.
    rewrite Hdr. cbn [truthy].
    change (agents w1) with (agents w).
    rewrite (bool_decide_eq_false_2 _ Hr), (bool_decide_eq_true_2 _ Hreg).
    cbn [negb andb]. rewrite inbox_put_eq by done.
    by destruct delivered as [[p c] m]; injection Hd1 as -> ->. }
  unfold exec, in_loop in Hw'. rewrite Hrun in Hw'. cbn [snd] in Hw'.
  rewrite Hw'. subst w1. fields. split_and!; try done.
  by rewrite publishes_app, publishes_deprecations, app_nil_r.
Qed.

(** ** The agent's inbox *)




(** ** The end of an agent *)

(** [Agent.shutdown] of a registered agent: the call returns when the
    consumer task was still waiting or had been cancelled, and raises the
    handler's exception again when the task had failed with it; the last
    thing it does is to log.  It always leaves the agent stopped, without
    its done callback and with its task no longer pending; what was in the
    agent's inbox stays there.  In a running container the agent leaves the
    registry and every subscription; in a container that is no longer
    running it stays registered and subscribed. *)
Theorem shutdown_ends_the_agent aid self w :
  let w' := exec (Agent_shutdown aid) w in
  aid ∈ agents w →
  objects w !! aid = Some self →
  (check_inbox_task self = TPending ∨ check_inbox_task self = TCancelled →
   result (Agent_shutdown aid) w = Ok ())
  ∧ (∀ what, check_inbox_task self = TFailed (HandlerError what) →
       result (Agent_shutdown aid) w = Err (HandlerError what))
  ∧ last (trace w') = Some (LogShutdown aid)
  ∧ (∃ self', objects w' !! aid = Some self'
              ∧ stopped self' = true
              ∧ done_callback self' = false
              ∧ check_inbox_task self' = task_cancel (check_inbox_task self)
              ∧ check_inbox_task self' ≠ TPending
              ∧ agent_inbox self' = agent_inbox self)
  ∧ (running w = true →
     aid ∉ agents w'
     ∧ ∀ sub X, (sub, X) ∈ additional_subscriptions w' → aid ∉ X)
  ∧ (running w = false →
     agents w' = agents w
     ∧ additional_subscriptions w' = additional_subscriptions w).
Proof.
  intros w' _ Hself. subst w'. unfold result, exec.
  rewrite (Agent_shutdown_eq aid self w Hself). cbn [fst snd].
  split_and!.
  - by intros [->| ->].
  - by intros what ->.
  - fields. unfold shutdown_events. rewrite !app_assoc. apply last_snoc.
  - fields. rewrite lookup_alter, decide_True by done.
    rewrite (shutdown_prefix_objects aid self w Hself). cbn [fmap option_fmap option_map].
    eexists. split; [reflexivity|]. unfold retire.
    cbn [stopped done_callback check_inbox_task agent_inbox
         set_check_inbox_task set_done_callback set_stopped].
    split_and!; try done. by destruct (check_inbox_task self).
  - intros Hrun. fields. unfold shutdown_prefix. rewrite Hrun. cbv zeta.
    unfold exec. rewrite deregister_agent_eq. fields. split; [set_solver|].
    intros sub X (Y & _ & ->)%pops_elem%without_elem. set_solver.
  - intros Hrun. fields. unfold shutdown_prefix. rewrite Hrun. cbv zeta.
    by destruct (stopped self).
Qed.

(** ** After the shutdown *)

Section Retired.

Variable aid : string.
Variable s : Agent.
Hypothesis s_stopped : stopped s = true.
Hypothesis s_callback : done_callback s = false.
Hypothesis s_task : check_inbox_task s ≠ TPending.










End Retired.


(** ** Expected classes and repeated subscriptions *)

Lemma class_for_set topic sub cls c (d : odict pyclass) :
  class_for topic d = Some c →
  od_get sub d = None →
  class_for topic (od_set sub cls d) = Some c.
Proof.
  induction d as [|[k c'] d IH]; [done|]. cbn [class_for od_get od_set].
  intros Hc Hsub. case_decide as Hk; [done|]. cbn [class_for].
  destruct (topic_matches_sub k topic); [done|]. by apply IH.
Qed.

(** The class bound first wins.  [decode_mqtt_msg] takes the class of the
    first pattern, in the order of binding, that matches the topic: once a
    topic has a class, binding a class to a pattern that was not bound
    before, also one that matches the topic more closely, does not change the
    class the topic is decoded with. *)
Theorem earlier_class_binding_wins topic sub cls c w :
  class_for topic (subscriptions_to_class w) = Some c →
  od_mem sub (subscriptions_to_class w) = false →
  class_for topic
    (subscriptions_to_class (exec (set_expected_class sub cls) w))
  = Some c.
Proof.
  intros Hc Hsub%od_mem_false. unfold exec, set_expected_class, modify.
  fields. by apply class_for_set.
Qed.

Lemma od_alter_id {V} (f : V → V) (k : string) (v : V) (d : odict V) :
  od_get k d = Some v → f v = v → od_alter f k d = d.
Proof.
  intros Hget Hf. induction d as [|[k' v'] d IH]; [done|].
  cbn [od_get od_alter] in *. case_decide as Hk.
  - injection Hget as ->. by rewrite Hf.
  - by rewrite IH.
Qed.

(** Subscribing again is idempotent on the routing table: after any history,
    when an agent subscribes to a topic it is already subscribed to,
    [subscribe_for_agent] returns [True] without calling the broker and
    without creating a future, and the table is what it was.  An expected
    class passed along is bound to the topic all the same. *)
Theorem repeated_subscription_changes_nothing ops a aid topic qos cls rc X :
  let w := run ops (init a) in
  let w' := exec (subscribe_for_agent aid topic qos cls rc) w in
  od_get topic (additional_subscriptions w) = Some X →
  aid ∈ X →
  result (subscribe_for_agent aid topic qos cls rc) w = Ok (Return true)
  ∧ additional_subscriptions w' = additional_subscriptions w
  ∧ trace w' = trace w
  ∧ futures w' = futures w
  ∧ pending_sub_request w' = pending_sub_request w
  ∧ agents w' = agents w
  ∧ (∀ c, cls = Some c → od_get topic (subscriptions_to_class w') = Some c)
  ∧ (cls = None → subscriptions_to_class w' = subscriptions_to_class w).
Proof.
  intros w w' Hget HX.
  destruct (subs_inv_run ops a) as [_ Hsubs]. fold w in Hsubs.
  assert (aid ∈ agents w) as Hin.
  { apply (Hsubs topic X); [|done]. by apply od_get_elem. }
  assert (od_mem topic (additional_subscriptions w) = true) as Hm.
  { apply od_mem_true. by eexists. }
  subst w'. unfold result, exec. rewrite subscribe_present by done.
  fields.
  assert (od_alter (λ s, s ∪ {[aid]}) topic (additional_subscriptions w)
          = additional_subscriptions w) as Hsame.
  { apply (od_alter_id _ _ X); [done | set_solver]. }
  destruct cls as [c|]; cbn [bind_class]; fields; rewrite Hsame;
    split_and!; try done.
  intros c' [= <-]. by rewrite od_get_set, decide_True.
Qed.

(** ** Scheduled tasks *)

Lemma sched_inv_step st o : sched_inv st → sched_inv (sched_step st o).
Proof.
  intros [Hl Hc]. destruct o as [|t]; cbn [sched_step].
  - unfold schedule_task. split; cbn [_scheduled_tasks task_done_callbacks].
    + rewrite length_app, Hl. cbn [length]. rewrite Nat.add_1_r.
      by rewrite seq_S.
    + intros t cbs [Ht|[Hle Ht]]%lookup_app_Some; [by apply Hc|].
      right. destruct (t - length (task_done_callbacks st))%nat eqn:Hd;
        [|done]. injection Ht as <-. do 3 f_equal. lia.
  - unfold task_finishes.
    destruct (task_done_callbacks st !! t) as [cbs|] eqn:Ht; [|done].
    assert (∀ t' cbs', <[t := []]> (task_done_callbacks st) !! t' = Some cbs' →
              cbs' = [] ∨ cbs' = [TaskOnStop; LambdaRemove t']) as Hc'.
    { intros t' cbs' Ht'. destruct (decide (t' = t)) as [->|Hne].
      - rewrite list_lookup_insert_eq in Ht' by by eapply lookup_lt_Some.
        left. congruence.
      - rewrite list_lookup_insert_ne in Ht' by done. by apply Hc. }
    destruct (Hc t cbs Ht) as [-> | ->]; cbn [foldl call_done_callback];
      unfold lambda_parameters; cbn [decide_rel decide].
    + split; cbn [_scheduled_tasks task_done_callbacks];
        [by rewrite length_insert | done].
    + rewrite decide_False by done.
      split; cbn [_scheduled_tasks task_done_callbacks];
        [by rewrite length_insert | done].
Qed.

Lemma sched_inv_run ops : sched_inv (sched_run ops).
Proof.
  unfold sched_run. induction ops as [|o ops IH] using rev_ind.
  - split; [done|]. intros t cbs Ht. cbn [foldl sched_init task_done_callbacks] in Ht.
    by rewrite lookup_nil in Ht.
  - rewrite foldl_app. by apply sched_inv_step.
Qed.

(** A task scheduled with [schedule_task] is never taken out of
    [self._scheduled_tasks].  The done callback that is to remove it is a
    [lambda] without a parameter, and the loop calls a done callback with the
    task as its argument: when a task finishes, [task.on_stop] is called,
    the [lambda] raises [TypeError] instead of running, and the list is what
    it was.  So, after any history of tasks scheduled and finished, the list
    names every task ever scheduled, in the order of scheduling. *)
Theorem scheduled_tasks_are_never_removed ops :
  let st := sched_run ops in
  _scheduled_tasks st = seq 0 (length (task_done_callbacks st))
  ∧ length (task_done_callbacks st)
    = length (filter (λ o, Is_true (is_schedule_task o)) ops)
  ∧ ∀ t, task_done_callbacks st !! t = Some [TaskOnStop; LambdaRemove t] →
      _scheduled_tasks (task_finishes t st) = _scheduled_tasks st
      ∧ sched_trace (task_finishes t st)
        = sched_trace st ++ [OnStopCalled t; CallbackRaised t "TypeError"].
Proof.
  intros st. destruct (sched_inv_run ops) as [Hl Hc]. fold st in Hl, Hc.
  split_and!; [done | |].
  - subst st. clear Hl Hc. unfold sched_run.
    induction ops as [|o ops IH] using rev_ind; [done|].
    rewrite foldl_app, filter_app, length_app. cbn [foldl].
    destruct o as [|t]; cbn [sched_step].
    + unfold schedule_task. cbn [task_done_callbacks].
      rewrite length_app, IH. done.
    + assert (filter (λ o, Is_true (is_schedule_task o)) [TaskFinishes t] = [])
        as -> by reflexivity.
      cbn [length]. rewrite Nat.add_0_r, <- IH. unfold task_finishes.
      destruct (task_done_callbacks (foldl sched_step sched_init ops) !! t)
        as [cbs|]; [|done].
      assert (∀ cbs' st0,
                length (task_done_callbacks
                          (foldl (λ st c, call_done_callback 1 t c st) st0 cbs'))
                = length (task_done_callbacks st0)) as Hfold.
      { induction cbs' as [|c cbs' IHc]; intros st0; [done|].
        cbn [foldl]. rewrite IHc. destruct c as [|t0]; [done|].
        cbn [call_done_callback]. case_decide; [|done].
        by destruct (list_remove t0 (_scheduled_tasks st0)). }
      rewrite Hfold. cbn [task_done_callbacks]. by rewrite length_insert.
  - intros t Ht. unfold task_finishes. rewrite Ht.
    cbn [foldl call_done_callback]. unfold lambda_parameters.
    rewrite decide_False by done.
    cbn [_scheduled_tasks sched_trace]. by rewrite <- app_assoc.
Qed.

(** ** What reaches the broker *)

(** The options of [send_message] never reach the broker.  A message that is
    not short-circuited is published with [publish(topic, payload)] alone:
    whatever [qos] and [retain] the caller passes, also a [retain] flag that
    is the very reason why a message for the own address goes out, the call
    of the client and the state left behind are the same. *)
Theorem publish_ignores_qos_and_retain
    content receiver_addr rid ca am mk kwargs kwargs' w :
  truthy_addr (addr w) = false ∨ addr w ≠ Some receiver_addr
    ∨ (retain_requested kwargs = true ∧ retain_requested kwargs' = true) →
  send_message content receiver_addr rid ca am mk kwargs w
  = send_message content receiver_addr rid ca am mk kwargs' w
  ∧ publishes (trace (exec (send_message content receiver_addr rid ca am mk
                              kwargs) w))
    = publishes (trace w)
      ++ [Publish receiver_addr
            (codec_encode (outgoing w content receiver_addr rid ca am))].
Proof.
  intros Hext.
  assert (truthy_addr (addr w) = false ∨ addr w ≠ Some receiver_addr
          ∨ retain_requested kwargs = true) as H1 by tauto.
  assert (truthy_addr (addr w) = false ∨ addr w ≠ Some receiver_addr
          ∨ retain_requested kwargs' = true) as H2 by tauto.
  unfold exec. rewrite !send_message_external by done. split; [done|].
  fields. rewrite !publishes_app, publishes_deprecations. done.
Qed.

End Mango.

(** * Examples

    The theorems above, run on a container with the sample collaborators. *)

#[local] Notation sample_run :=
  (run mqtt_topic_matches_sub sample_decode sample_encode sample_create_acl).

(** C8: the invariant as the spec states it fails.  An agent that subscribes to the
    container's own inbox address makes that address a key of
    [additional_subscriptions]. *)
Lemma inbox_topic_becomes_a_subscription :
  let w0 := sample_run [CreateAgent "agent0"] (init (Some "container/inbox")) in
  let w := exec (subscribe_for_agent "agent0" "container/inbox" 0 None
                   MQTT_ERR_SUCCESS) w0 in
  "agent0" ∈ agents w0
  ∧ inbox_topic w = Some "container/inbox"
  ∧ od_mem "container/inbox" (additional_subscriptions w) = true.
Proof. by vm_compute. Qed.

Lemma inbox_topic_is_no_subscription_unless_subscribed_witness :
  let ops := [CreateAgent "agent0";
              SubscribeForAgent "agent0" "sensors/#" 0 None MQTT_ERR_SUCCESS;
              DeregisterAgentOp "agent0"] in
  Forall (λ o, subscribes_to "container/inbox" o = false) ops
  ∧ od_mem "container/inbox"
      (additional_subscriptions (sample_run ops (init (Some "container/inbox"))))
    = false.
Proof.
  intros ops.
  assert (Forall (λ o, subscribes_to "container/inbox" o = false) ops) as Hops.
  { by repeat constructor. }
  split; [exact Hops|].
  apply (proj1 (inbox_topic_is_no_subscription_unless_subscribed
                  mqtt_topic_matches_sub sample_decode sample_encode
                  sample_create_acl "container/inbox") ops Hops).
Defined.

Lemma subscription_failure_is_not_atomic_witness :
  let w := sample_run [CreateAgent "agent0"] (init None) in
  let w' := exec (subscribe_for_agent "agent0" "sensors/+/temp" 0
                    (Some ACLMessage) 1) w in
  result (subscribe_for_agent "agent0" "sensors/+/temp" 0 (Some ACLMessage) 1) w
    = Ok (Return false)
  ∧ od_get "sensors/+/temp" (additional_subscriptions w') = Some {["agent0"]}
  ∧ od_get "sensors/+/temp" (subscriptions_to_class w') = Some ACLMessage
  ∧ result (subscribe_for_agent "agent0" "sensors/+/temp" 0 None 0) w'
    = Ok (Return true).
Proof.
  intros w w'.
  destruct (subscription_failure_is_not_atomic "agent0" "sensors/+/temp" 0
              (Some ACLMessage) 1 w) as (H1 & H2 & H3 & H4 & H5).
  - by vm_compute.
  - reflexivity.
  - discriminate.
  - split_and!; [exact H1 | exact H3 | by apply H4 |].
    apply (H5 "agent0" 0 None 0). by vm_compute.
Defined.

Lemma subscriptions_are_reference_counted_witness :
  let P := "sensors/+/temp" in
  let w0 := sample_run [CreateAgent "a1"; CreateAgent "a2"; CreateAgent "a3"]
              (init (Some "container/inbox")) in
  let w1 := (subscribe_all ["a1"; "a2"; "a3"] P 0 None MQTT_ERR_SUCCESS w0).2 in
  subscribe_calls P (trace w1) = S (subscribe_calls P (trace w0))
  ∧ unsubscribe_calls P (trace (deregister_all ["a2"; "a1"] w1))
    = unsubscribe_calls P (trace w1)
  ∧ unsubscribe_calls P (trace (deregister_all ["a2"; "a1"; "a3"] w1))
    = S (unsubscribe_calls P (trace w1)).
Proof.
  intros P w0 w1.
  destruct (subscriptions_are_reference_counted mqtt_topic_matches_sub
              sample_decode sample_encode sample_create_acl
              [CreateAgent "a1"; CreateAgent "a2"; CreateAgent "a3"]
              (Some "container/inbox") P 0 None MQTT_ERR_SUCCESS
              "a1" ["a2"; "a3"] ["a2"; "a1"; "a3"])
    as (_ & Hsub & _ & _ & Hbefore & Hlast).
  - apply (bool_decide_unpack _). by vm_compute.
  - intros aid Hin. apply (bool_decide_unpack _).
    repeat (apply elem_of_cons in Hin as [->|Hin]; [by vm_compute|]).
    exfalso. by apply elem_of_nil in Hin.
  - reflexivity.
  - apply perm_swap.
  - split_and!; [exact Hsub | apply (Hbefore 2%nat); simpl; lia | exact Hlast].
Defined.

Lemma dispatch_fans_out_to_subscribers_witness :
  let ops := [CreateAgent "b"; CreateAgent "c";
              SubscribeForAgent "b" "sensors/+/temp" 0 None MQTT_ERR_SUCCESS;
              SubscribeForAgent "c" "sensors/+/temp" 0 None MQTT_ERR_SUCCESS] in
  let meta := transport_meta "sensors/room1/temp" 0 false in
  let w := sample_run ops (init (Some "container/inbox")) in
  let w' := exec (_handle_msg mqtt_topic_matches_sub 0 (OData "hello") meta) w in
  recipients mqtt_topic_matches_sub "sensors/room1/temp"
    (additional_subscriptions w) = {["b"; "c"]}
  ∧ result (_handle_msg mqtt_topic_matches_sub 0 (OData "hello") meta) w = Ok ()
  ∧ trace w' = trace w
  ∧ agent_inbox <$> objects w' !! "b" = Some [(0, OData "hello", meta)]
  ∧ agent_inbox <$> objects w' !! "c" = Some [(0, OData "hello", meta)].
Proof.
  intros ops meta w w'.
  assert (recipients mqtt_topic_matches_sub "sensors/room1/temp"
            (additional_subscriptions w) = {["b"; "c"]}) as Hrec.
  { by vm_compute. }
  destruct (dispatch_fans_out_to_subscribers mqtt_topic_matches_sub
              sample_decode sample_encode sample_create_acl ops
              (Some "container/inbox") 0 (OData "hello") meta
              "sensors/room1/temp") as (Hres & _ & _ & Hsome).
  - reflexivity.
  - by vm_compute.
  - fold w w' in Hres, Hsome. rewrite Hrec in Hsome.
    destruct Hsome as [Htrace Hall]; [by vm_compute|].
    split_and!; [done | exact Hres | exact Htrace | |].
    + specialize (Hall "b"). rewrite decide_True in Hall by set_solver.
      destruct Hall as (agent & Hb & ->). simpl.
      assert (objects w !! "b" = Some new_agent) as Hnew by by vm_compute.
      rewrite Hnew in Hb. by injection Hb as <-.
    + specialize (Hall "c"). rewrite decide_True in Hall by set_solver.
      destruct Hall as (agent & Hc & ->). simpl.
      assert (objects w !! "c" = Some new_agent) as Hnew by by vm_compute.
      rewrite Hnew in Hc. by injection Hc as <-.
Defined.

(** C4: the property as the spec states it fails for a container whose inbox address is the
    empty string: [self.addr] is falsy, so a message for that very address,
    without the retain flag, is published and not put into the inbox. *)
Lemma empty_inbox_address_is_not_short_circuited :
  let w := init (Some "") in
  let w' := exec (send_message sample_encode sample_create_acl (OData "hello")
                    "" None None None None ∅) w in
  addr w = Some ""
  ∧ retain_requested ∅ = false
  ∧ inbox w' = []
  ∧ trace w' = [LoopStart; Publish "" [Byte.x01]].
Proof. by vm_compute. Qed.

Lemma send_message_short_circuits_own_address_witness :
  let w := init (Some "container/inbox") in
  let w' := exec (send_message sample_encode sample_create_acl sample_acl
                    "container/inbox" None None None None ∅) w in
  inbox w' = [local_entry sample_acl "container/inbox" ∅]
  ∧ publishes (trace w') = [].
Proof.
  intros w w'.
  destruct (proj1 (send_message_short_circuits_own_address
                     mqtt_topic_matches_sub sample_decode sample_encode
                     sample_create_acl sample_acl "container/inbox" None None
                     None None ∅ w)) as (Hin & _ & Hpub); try reflexivity.
  split; [exact Hin | exact Hpub].
Defined.

(** C10: the particular case of the property fails for a container whose inbox
    address is the empty string: the message is published, whatever
    [mqtt_kwargs] holds. *)
Lemma empty_inbox_address_is_published_with_mqtt_kwargs :
  let w := init (Some "") in
  let w' := exec (send_message sample_encode sample_create_acl (OData "hello")
                    "" None None None (Some {[ "retain" := VBool true ]}) ∅) w in
  addr w = Some ""
  ∧ (∅ : pydict) !! "retain" = None
  ∧ inbox w' = []
  ∧ publishes (trace w') = [Publish "" [Byte.x01]].
Proof. by vm_compute. Qed.

Lemma mqtt_kwargs_is_ignored_witness :
  let w := init (Some "container/inbox") in
  let w' := exec (send_message sample_encode sample_create_acl (OData "hello")
                    "container/inbox" None None None
                    (Some {[ "retain" := VBool true ]}) ∅) w in
  inbox w' = [local_entry (OData "hello") "container/inbox" ∅]
  ∧ publishes (trace w') = [].
Proof.
  intros w w'.
  destruct (proj2 (mqtt_kwargs_is_ignored
                     mqtt_topic_matches_sub sample_decode sample_encode
                     sample_create_acl (OData "hello") "container/inbox" None
                     None None (Some {[ "retain" := VBool true ]}) ∅ w))
    as (Hin & Hpub); try reflexivity.
  split; [exact Hin | exact Hpub].
Defined.


Lemma on_msg_posts_the_decoded_message_witness :
  let w := sample_run [SetExpectedClass "sensors/#" ACLMessage] (init None) in
  ready (exec (in_thread (on_msg mqtt_topic_matches_sub sample_decode
                            "sensors/room1/temp" [Byte.x02] 0 false)) w)
  = [PutNowait (0, sample_acl,
       dict_update (transport_meta "sensors/room1/temp" 0 false)
         {[ "sender_id" := VStr "agent7" ]})].
Proof.
  intros w.
  rewrite (proj1 (on_msg_posts_the_decoded_message mqtt_topic_matches_sub
                    sample_decode "sensors/room1/temp" [Byte.x02] 0 false
                    (OData "hello") {[ "sender_id" := VStr "agent7" ]} w
                    eq_refl)); reflexivity.
Defined.

Lemma subscribers_stay_registered_witness :
  let w := sample_run
             [CreateAgent "b";
              SubscribeForAgent "b" "sensors/+/temp" 0 None MQTT_ERR_SUCCESS]
             (init None) in
  ("sensors/+/temp", {["b"]}) ∈ additional_subscriptions w
  ∧ "b" ∈ agents w.
Proof.
  intros w.
  assert (("sensors/+/temp", {["b"]}) ∈ additional_subscriptions w) as Hin.
  { vm_compute. by left. }
  split; [exact Hin|].
  apply (subscribers_stay_registered mqtt_topic_matches_sub sample_decode
           sample_encode sample_create_acl _ None "sensors/+/temp" {["b"]} "b"
           Hin).
  set_solver.
Defined.

Lemma dispatch_to_inbox_address_witness :
  let w := sample_run [CreateAgent "a"] (init (Some "agentA/inbox")) in
  let meta : pydict :=
    <["receiver_id" := VStr "a"]> (transport_meta "agentA/inbox" 0 false) in
  let w' := exec (_handle_msg mqtt_topic_matches_sub 0 (OData "hello") meta) w in
  objects w' = alter (deliver (0, OData "hello", meta)) "a" (objects w)
  ∧ trace w' = trace w.
Proof.
  intros w meta w'.
  destruct (dispatch_to_inbox_address mqtt_topic_matches_sub 0 (OData "hello")
              meta "agentA/inbox" w) as [Hsome _]; [reflexivity..|].
  destruct (Hsome "a") as (_ & Hobjs & Htrace);
    [reflexivity | done | by vm_compute |].
  split; [exact Hobjs | exact Htrace].
Defined.

Lemma no_subscription_is_empty_witness :
  let w := sample_run
             [CreateAgent "b"; CreateAgent "c";
              SubscribeForAgent "b" "sensors/+/temp" 0 None MQTT_ERR_SUCCESS;
              SubscribeForAgent "c" "sensors/+/temp" 0 None MQTT_ERR_SUCCESS;
              DeregisterAgentOp "b"]
             (init None) in
  ("sensors/+/temp", {["c"]}) ∈ additional_subscriptions w
  ∧ ({["c"]} : gset string) ≠ ∅.
Proof.
  intros w.
  assert (("sensors/+/temp", {["c"]}) ∈ additional_subscriptions w) as Hin.
  { vm_compute. by left. }
  split; [exact Hin|].
  exact (no_subscription_is_empty mqtt_topic_matches_sub sample_decode
           sample_encode sample_create_acl _ None "sensors/+/temp" {["c"]}
           Hin).
Defined.

Lemma deregister_agent_drops_sole_subscriptions_witness :
  let w := sample_run
             [CreateAgent "b"; CreateAgent "c";
              SubscribeForAgent "b" "sensors/+/temp" 0 None MQTT_ERR_SUCCESS;
              SubscribeForAgent "c" "sensors/+/temp" 0 None MQTT_ERR_SUCCESS;
              SubscribeForAgent "b" "alerts/#" 0 (Some ACLMessage)
                MQTT_ERR_SUCCESS]
             (init None) in
  let w' := exec (deregister_agent "b") w in
  additional_subscriptions w' = [("sensors/+/temp", {["c"]})]
  ∧ trace w' = trace w ++ [Unsubscribe "alerts/#"]
  ∧ od_get "alerts/#" (subscriptions_to_class w') = Some ACLMessage.
Proof.
  intros w w'.
  destruct (deregister_agent_drops_sole_subscriptions mqtt_topic_matches_sub
              sample_decode sample_encode sample_create_acl
              [CreateAgent "b"; CreateAgent "c";
               SubscribeForAgent "b" "sensors/+/temp" 0 None MQTT_ERR_SUCCESS;
               SubscribeForAgent "c" "sensors/+/temp" 0 None MQTT_ERR_SUCCESS;
               SubscribeForAgent "b" "alerts/#" 0 (Some ACLMessage)
                 MQTT_ERR_SUCCESS]
              None "b") as (_ & _ & Hsubs & Htrace & Hcls & _).
  - apply (bool_decide_unpack _). by vm_compute.
  - fold w w' in Hsubs, Htrace, Hcls. split_and!.
    + rewrite Hsubs. by vm_compute.
    + rewrite Htrace. f_equal.
    + rewrite Hcls. by vm_compute.
Defined.

Lemma awaited_subscription_completes_witness :
  let w := sample_run
             [CreateAgent "agent0";
              SubscribeForAgent "agent0" "t1" 0 None MQTT_ERR_SUCCESS;
              SubscribeForAgent "agent0" "t2" 0 None MQTT_ERR_SUCCESS]
             (init None) in
  "agent0" ∈ agents w
  ∧ od_mem "t3" (additional_subscriptions w) = false
  ∧ result (subscribe_and_wait "agent0" "t3" 0 None MQTT_ERR_SUCCESS) w
    = Ok (Return true).
Proof.
  intros w.
  assert ("agent0" ∈ agents w) as Hin.
  { apply (bool_decide_unpack _). by vm_compute. }
  assert (od_mem "t3" (additional_subscriptions w) = false) as Hm.
  { by vm_compute. }
  split_and!; [exact Hin | exact Hm |].
  exact (proj1 (awaited_subscription_completes mqtt_topic_matches_sub
                  sample_decode sample_encode sample_create_acl _ None
                  "agent0" "t3" 0 None Hin Hm)).
Defined.


Lemma message_to_own_address_reaches_the_agent_witness :
  let content := OACL (OData "hello") {[ "receiver_id" := VStr "a" ]} in
  let w := sample_run [CreateAgent "a"] (init (Some "agentA/inbox")) in
  let w' := sample_run
              [SendMessage content "agentA/inbox" None None None None ∅;
               Dispatch] w in
  publishes (trace w') = publishes (trace w)
  ∧ objects w'
    = alter (deliver (local_entry content "agentA/inbox" ∅)) "a" (objects w).
Proof.
  intros content w w'.
  destruct (message_to_own_address_reaches_the_agent mqtt_topic_matches_sub
              sample_decode sample_encode sample_create_acl
              [CreateAgent "a"] "agentA/inbox" "a" content None None None None
              ∅ (OData "hello") {[ "receiver_id" := VStr "a" ]})
    as (Hpub & _ & Hobjs & _).
  - done.
  - reflexivity.
  - reflexivity.
  - reflexivity.
  - reflexivity.
  - by vm_compute.
  - by vm_compute.
  - done.
  - apply (bool_decide_unpack _). by vm_compute.
  - split; [exact Hpub | exact Hobjs].
Defined.


Lemma shutdown_ends_the_agent_witness :
  let ops := [CreateAgent "e";
              SubscribeForAgent "e" "x/y" 0 None MQTT_ERR_SUCCESS;
              OnMessage "x/y" [Byte.x01] 0 false; RunCallback; Dispatch;
              CheckInbox "e" (Raises "boom")] in
  let w := sample_run ops (init None) in
  let w' := exec (Agent_shutdown "e") w in
  result (Agent_shutdown "e") w = Err (HandlerError "boom")
  ∧ last (trace w') = Some (LogShutdown "e")
  ∧ "e" ∉ agents w'.
Proof.
  intros ops w w'.
  destruct (shutdown_ends_the_agent mqtt_topic_matches_sub "e"
              (mkAgent [] (TFailed (HandlerError "boom")) true false) w)
    as (_ & Hfail & Hlast & _ & Hrunning & _).
  - apply (bool_decide_unpack _). by vm_compute.
  - by vm_compute.
  - split_and!; [by apply (Hfail "boom") | exact Hlast |].
    by apply Hrunning.
Defined.


Lemma earlier_class_binding_wins_witness :
  let w := sample_run [SetExpectedClass "sensors/#" ACLMessage] (init None) in
  let w' := exec (set_expected_class "sensors/room1/temp"
                    (UserClass "Reading")) w in
  class_for mqtt_topic_matches_sub "sensors/room1/temp"
    (subscriptions_to_class w') = Some ACLMessage.
Proof.
  intros w w'.
  apply (earlier_class_binding_wins mqtt_topic_matches_sub
           "sensors/room1/temp" "sensors/room1/temp" (UserClass "Reading")
           ACLMessage w); reflexivity.
Defined.

Lemma repeated_subscription_changes_nothing_witness :
  let w := sample_run
             [CreateAgent "b";
              SubscribeForAgent "b" "x/y" 0 None MQTT_ERR_SUCCESS]
             (init None) in
  let w' := exec (subscribe_for_agent "b" "x/y" 1 (Some ACLMessage) 0) w in
  result (subscribe_for_agent "b" "x/y" 1 (Some ACLMessage) 0) w
    = Ok (Return true)
  ∧ additional_subscriptions w' = additional_subscriptions w
  ∧ trace w' = trace w
  ∧ od_get "x/y" (subscriptions_to_class w') = Some ACLMessage.
Proof.
  intros w w'.
  destruct (repeated_subscription_changes_nothing mqtt_topic_matches_sub
              sample_decode sample_encode sample_create_acl
              [CreateAgent "b";
               SubscribeForAgent "b" "x/y" 0 None MQTT_ERR_SUCCESS]
              None "b" "x/y" 1 (Some ACLMessage) 0 {["b"]})
    as (Hres & Hsubs & Htrace & _ & _ & _ & Hcls & _).
  - by vm_compute.
  - set_solver.
  - split_and!; [exact Hres | exact Hsubs | exact Htrace | by apply Hcls].
Defined.

Lemma publish_ignores_qos_and_retain_witness :
  let w := init (Some "container/inbox") in
  send_message sample_encode sample_create_acl (OData "hello")
    "container/inbox" None None None None
    {[ "retain" := VBool true; "qos" := VInt 2 ]} w
  = send_message sample_encode sample_create_acl (OData "hello")
      "container/inbox" None None None None {[ "retain" := VBool true ]} w.
Proof.
  intros w.
  apply (publish_ignores_qos_and_retain mqtt_topic_matches_sub sample_decode
           sample_encode sample_create_acl (OData "hello") "container/inbox"
           None None None None {[ "retain" := VBool true; "qos" := VInt 2 ]}
           {[ "retain" := VBool true ]} w).
  right. right. split; by vm_compute.
Defined.
